(** * Proma: history windowing, provider adapters and the chat turn orchestrator

    A shallow embedding of
    - [apps/electron/src/main/lib/chat-service.ts] (filterHistory, sendMessage,
      stopGeneration, generateTitle),
    - [apps/electron/src/main/lib/conversation-manager.ts] (the JSONL message
      log and the conversation index),
    - [packages/core/src/providers/anthropic-adapter.ts] and
      [packages/core/src/providers/google-adapter.ts] (message conversion and
      SSE line parsing),
    followed by the properties of the specification that concern them. *)

From stdpp Require Import base list strings gmap pretty sorting.
From Stdlib Require Import ZArith QArith Lia Ascii.

Set Warnings "-register-all".

Local Open Scope string_scope.
Local Open Scope list_scope.
Local Open Scope Z_scope.

(** ** Shared types ([@proma/shared]) as the code uses them *)

Inductive Role := user | assistant | system.

Definition Role_eqb (a b : Role) : bool :=
  match a, b with
  | user, user | assistant, assistant | system, system => true
  | _, _ => false
  end.

(** Only [mediaType] and [localPath] are read by the code under study. *)
Record FileAttachment := {
  mediaType : string;
  localPath : string;
}.

Record ChatMessage := {
  msg_id : string;
  role : Role;
  content : string;
  createdAt : Z;
  model : option string;
  reasoning : option string;
  attachments : option (list FileAttachment);
  stopped : option bool;
}.

(** [contextLength?: number | 'infinite']: a round count or the sentinel;
    [undefined] is [None] at the use site. The count is an integer, of either
    sign; numbers that are not integers are not modelled. *)
Inductive ContextLength :=
  | Rounds (n : Z)
  | infinite.

(** ** History windowing ([chat-service.ts], filterHistory) *)

Module Windowing.

(** [Array.prototype.findIndex]: the first index whose element satisfies the
    predicate, [-1] when there is none. *)
Fixpoint findIndex {A : Type} (p : A → bool) (l : list A) : Z :=
  match l with
  | [] => -1
  | x :: l' =>
      if p x then 0
      else let r := findIndex p l' in if r <? 0 then -1 else r + 1
  end.

(** [Array.prototype.slice(start)] for a start that is not negative. *)
Definition slice_from {A : Type} (start : Z) (l : list A) : list A :=
  drop (Z.to_nat start) l.

Definition isUser (msg : ChatMessage) : bool := Role_eqb (role msg) user.

(** The backwards loop
    [for (let i = filtered.length - 1; i >= 0; i--)] with its two
    accumulators; the argument [n] is [i + 1], so the loop is entered with
    [n = length filtered] and left at [n = 0] or at the [break]. *)
Fixpoint collectRounds (filtered : list ChatMessage) (contextLength : Z)
    (n : nat) (roundCount : Z) (collected : list ChatMessage)
    : list ChatMessage :=
  match n with
  | O => collected
  | S i =>
      match filtered !! i with
      | None => collected
      | Some msg =>
          let collected := msg :: collected in   (* collected.unshift(msg) *)
          if isUser msg then
            let roundCount := roundCount + 1 in
            if roundCount >=? contextLength then collected
            else collectRounds filtered contextLength i roundCount collected
          else collectRounds filtered contextLength i roundCount collected
      end
  end.

Definition filterHistory (messageHistory : list ChatMessage)
    (contextDividers : option (list string))
    (contextLength : option ContextLength) : list ChatMessage :=
  let filtered := messageHistory in
  let filtered :=
    match contextDividers with
    | Some dividers =>
        match last dividers with            (* contextDividers.length > 0 *)
        | Some lastDividerId =>
            let dividerIndex :=
              findIndex (λ msg, String.eqb (msg_id msg) lastDividerId) filtered in
            if 0 <=? dividerIndex then slice_from (dividerIndex + 1) filtered
            else filtered
        | None => filtered
        end
    | None => filtered
    end in
  match contextLength with
  | Some (Rounds contextLength) =>
      if 0 <=? contextLength then
        if contextLength =? 0 then []
        else collectRounds filtered contextLength (length filtered) 0 []
      else filtered
  | Some infinite | None => filtered
  end.

(** Number of user-authored messages of a list. *)
Definition countUser (l : list ChatMessage) : Z :=
  Z.of_nat (length (filter (λ m, isUser m = true) l)).

(** The divider step of [filterHistory] on its own. *)
Definition afterDivider (H : list ChatMessage) (D : option (list string))
    : list ChatMessage :=
  filterHistory H D None.

End Windowing.

(** ** JavaScript values and completions

    What [JSON.parse] can return, property access on it, truthiness, and the
    normal/abrupt completion of an expression, as far as the adapters and the
    orchestrator use them. *)

Module JS.

(** A thrown value; [error instanceof Error ? error.message : ...] tells the
    two cases apart. [TypeError] and [SyntaxError] are [Error]s. *)
Inductive Thrown :=
  | Err (message : string)
  | NotAnError.

Inductive Completion (A : Type) :=
  | Normal (a : A)
  | Abrupt (e : Thrown).
Arguments Normal {A} a.
Arguments Abrupt {A} e.

#[global] Instance Completion_ret : MRet Completion := λ A a, Normal a.
#[global] Instance Completion_bind : MBind Completion := λ A B f m,
  match m with
  | Normal a => f a
  | Abrupt e => Abrupt e
  end.

(** [try { body } catch { handler }] *)
Definition try_catch {A : Type} (body : Completion A)
    (handler : Thrown → Completion A) : Completion A :=
  match body with
  | Normal a => Normal a
  | Abrupt e => handler e
  end.

(** A number read by [JSON.parse]: a double, never NaN; a literal that
    overflows reads as an infinity. *)
Inductive Number :=
  | Finite (q : Q)
  | Infinity (negative : bool).

Inductive Value :=
  | JNull
  | JBool (b : bool)
  | JNum (n : Number)
  | JStr (s : string)
  | JArr (items : list Value)
  | JObj (fields : list (string * Value)).

(** A JavaScript value here is [None] for [undefined] or a JSON value. *)
Definition truthy (v : option Value) : bool :=
  match v with
  | None | Some JNull => false
  | Some (JBool b) => b
  | Some (JNum (Finite q)) => negb (Qeq_bool q 0)
  | Some (JNum (Infinity _)) => true
  | Some (JStr s) => negb (String.eqb s "")
  | Some (JArr _) | Some (JObj _) => true
  end.

(** An object built by [JSON.parse] keeps the last of several equal keys. *)
Fixpoint lookup_field (name : string) (fields : list (string * Value))
    : option Value :=
  match fields with
  | [] => None
  | (k, v) :: rest =>
      match lookup_field name rest with
      | Some v' => Some v'
      | None => if String.eqb k name then Some v else None
      end
  end.

(** [v.name] for the property names the adapters read ([type], [delta],
    [text], [thinking], [candidates], [content], [parts], [thought]): none of
    them is an own or inherited property of an array, string, number or
    boolean, and reading a property of [null] or [undefined] is a
    [TypeError]. *)
Definition getProp (v : option Value) (name : string)
    : Completion (option Value) :=
  match v with
  | None | Some JNull => Abrupt (Err "Cannot read properties of null or undefined")
  | Some (JObj fields) => Normal (lookup_field name fields)
  | Some _ => Normal None
  end.

(** [v?.name] *)
Definition optProp (v : option Value) (name : string)
    : Completion (option Value) :=
  match v with
  | None | Some JNull => Normal None
  | _ => getProp v name
  end.

(** [v?.[0]]: the first element of an array, the first character of a
    string, the property ["0"] of an object. *)
Definition optIndex0 (v : option Value) : Completion (option Value) :=
  match v with
  | None | Some JNull => Normal None
  | Some (JArr items) => Normal (head items)
  | Some (JStr (String c _)) => Normal (Some (JStr (String c "")))
  | Some (JObj fields) => Normal (lookup_field "0" fields)
  | Some _ => Normal None
  end.

(** [v === 'literal'] *)
Definition strictEqStr (v : option Value) (lit : string) : bool :=
  match v with
  | Some (JStr s) => String.eqb s lit
  | _ => false
  end.

(** The elements [for (const x of v)] visits: arrays and strings are
    iterable, anything else is a [TypeError]. *)
Definition iterate (v : Value) : Completion (list Value) :=
  match v with
  | JArr items => Normal items
  | JStr s => Normal ((λ c, JStr (String c "")) <$> String.list_ascii_of_string s)
  | _ => Abrupt (Err "not iterable")
  end.

End JS.

(** ** A reader for JSON text

    [JSON.parse] belongs to the platform, and the adapters are parameterised
    by it: [None] stands for a [SyntaxError]. The reader below covers the JSON
    of the example frames (objects, arrays, strings without escape sequences,
    integers, [true], [false], [null]) and rejects everything else; it is used
    for concrete frames only. *)

Module JSONText.
Import JS.

Inductive Token :=
  | TLBrace | TRBrace | TLBracket | TRBracket | TColon | TComma
  | TString (s : string)
  | TNumber (n : Z)
  | TWord (w : string).

Inductive LexState :=
  | LIdle
  | LStr (rev_chars : list ascii)
  | LNum (negative : bool) (digits : option Z)
  | LWord (rev_chars : list ascii).

Definition code (c : ascii) : Z := Z.of_nat (Ascii.nat_of_ascii c).

Definition isDigit (c : ascii) : bool := (48 <=? code c) && (code c <=? 57).
Definition isLower (c : ascii) : bool := (97 <=? code c) && (code c <=? 122).
Definition isSpace (c : ascii) : bool :=
  (code c =? 32) || (code c =? 9) || (code c =? 10) || (code c =? 13).

Definition string_of_rev (rev_chars : list ascii) : string :=
  String.string_of_list_ascii (rev rev_chars).

(** A character met outside a string, number or word. *)
Definition start (c : ascii) : option (LexState * list Token) :=
  if isSpace c then Some (LIdle, [])
  else if code c =? 123 then Some (LIdle, [TLBrace])
  else if code c =? 125 then Some (LIdle, [TRBrace])
  else if code c =? 91 then Some (LIdle, [TLBracket])
  else if code c =? 93 then Some (LIdle, [TRBracket])
  else if code c =? 58 then Some (LIdle, [TColon])
  else if code c =? 44 then Some (LIdle, [TComma])
  else if code c =? 34 then Some (LStr [], [])
  else if code c =? 45 then Some (LNum true None, [])
  else if isDigit c then Some (LNum false (Some (code c - 48)), [])
  else if isLower c then Some (LWord [c], [])
  else None.

Definition signed (negative : bool) (z : Z) : Z := if negative then - z else z.

Fixpoint lex (cs : list ascii) (st : LexState) (rev_out : list Token)
    : option (list Token) :=
  match cs with
  | [] =>
      match st with
      | LIdle => Some (rev rev_out)
      | LStr _ | LNum _ None => None
      | LNum neg (Some z) => Some (rev (TNumber (signed neg z) :: rev_out))
      | LWord w => Some (rev (TWord (string_of_rev w) :: rev_out))
      end
  | c :: cs' =>
      match st with
      | LIdle =>
          match start c with
          | Some (st', toks) => lex cs' st' (toks ++ rev_out)
          | None => None
          end
      | LStr acc =>
          if code c =? 34 then lex cs' LIdle (TString (string_of_rev acc) :: rev_out)
          else if (code c =? 92) || (code c <? 32) then None
          else lex cs' (LStr (c :: acc)) rev_out
      | LNum neg None =>
          if isDigit c then lex cs' (LNum neg (Some (code c - 48))) rev_out
          else None
      | LNum neg (Some z) =>
          if isDigit c then
            if z =? 0 then None
            else lex cs' (LNum neg (Some (10 * z + (code c - 48)))) rev_out
          else
            match start c with
            | Some (st', toks) =>
                lex cs' st' (toks ++ TNumber (signed neg z) :: rev_out)
            | None => None
            end
      | LWord w =>
          if isLower c then lex cs' (LWord (c :: w)) rev_out
          else
            match start c with
            | Some (st', toks) =>
                lex cs' st' (toks ++ TWord (string_of_rev w) :: rev_out)
            | None => None
            end
      end
  end.

Fixpoint parse_value (fuel : nat) (ts : list Token)
    : option (Value * list Token) :=
  match fuel with
  | O => None
  | S fuel =>
      match ts with
      | TString s :: rest => Some (JStr s, rest)
      | TNumber n :: rest => Some (JNum (Finite (inject_Z n)), rest)
      | TWord w :: rest =>
          if String.eqb w "null" then Some (JNull, rest)
          else if String.eqb w "true" then Some (JBool true, rest)
          else if String.eqb w "false" then Some (JBool false, rest)
          else None
      | TLBracket :: TRBracket :: rest => Some (JArr [], rest)
      | TLBracket :: rest => parse_elements fuel rest []
      | TLBrace :: TRBrace :: rest => Some (JObj [], rest)
      | TLBrace :: rest => parse_members fuel rest []
      | _ => None
      end
  end
with parse_elements (fuel : nat) (ts : list Token) (rev_items : list Value)
    : option (Value * list Token) :=
  match fuel with
  | O => None
  | S fuel =>
      match parse_value fuel ts with
      | Some (v, TComma :: rest) => parse_elements fuel rest (v :: rev_items)
      | Some (v, TRBracket :: rest) => Some (JArr (rev (v :: rev_items)), rest)
      | _ => None
      end
  end
with parse_members (fuel : nat) (ts : list Token)
    (rev_fields : list (string * Value)) : option (Value * list Token) :=
  match fuel with
  | O => None
  | S fuel =>
      match ts with
      | TString k :: TColon :: rest =>
          match parse_value fuel rest with
          | Some (v, TComma :: rest') =>
              parse_members fuel rest' ((k, v) :: rev_fields)
          | Some (v, TRBrace :: rest') =>
              Some (JObj (rev ((k, v) :: rev_fields)), rest')
          | _ => None
          end
      | _ => None
      end
  end.

Definition parse (text : string) : option Value :=
  match lex (String.list_ascii_of_string text) LIdle [] with
  | Some ts =>
      match parse_value (S (length ts)) ts with
      | Some (v, []) => Some v
      | _ => None
      end
  | None => None
  end.

(** Frames are written with ['] where the JSON text has its double quote. *)
Definition dq (text : string) : string :=
  String.string_of_list_ascii
    ((λ c, if code c =? 39 then Ascii.ascii_of_nat 34 else c)
       <$> String.list_ascii_of_string text).

End JSONText.

(** ** Provider types ([packages/core/src/providers/types.ts]) *)

(** The normalized stream events. An adapter puts into [delta] whatever
    truthy value the frame carries, so the carrier of [delta] is a parameter:
    JSON values at the adapter boundary, strings for the orchestrator. *)
Inductive StreamEvent (D : Type) :=
  | StreamChunkEvent (delta : D)
  | StreamReasoningEvent (delta : D)
  | StreamErrorEvent (error : string)
  | StreamDoneEvent.
Arguments StreamChunkEvent {D} delta.
Arguments StreamReasoningEvent {D} delta.
Arguments StreamErrorEvent {D} error.
Arguments StreamDoneEvent {D}.

Record ImageAttachmentData := {
  img_mediaType : string;
  img_data : string;
}.

Definition ImageAttachmentReader : Type :=
  option (list FileAttachment) → list ImageAttachmentData.

Record StreamRequestInput := {
  baseUrl : string;
  apiKey : string;
  modelId : string;
  history : list ChatMessage;
  userMessage : string;
  systemMessage : option string;
  req_attachments : option (list FileAttachment);
  readImageAttachments : ImageAttachmentReader;
  thinkingEnabled : option bool;
}.

(** ** The Anthropic adapter ([anthropic-adapter.ts]) *)

Module Anthropic.
Import JS.

Inductive AnthropicContentBlock :=
  | TextBlock (text : string)
  | ImageBlock (media_type data : string).

Inductive AnthropicContent :=
  | PlainText (text : string)
  | Blocks (blocks : list AnthropicContentBlock).

Inductive AnthropicRole := role_user | role_assistant.

Record AnthropicMessage := {
  a_role : AnthropicRole;
  a_content : AnthropicContent;
}.

Definition buildImageBlocks (imageData : list ImageAttachmentData)
    : list AnthropicContentBlock :=
  (λ img, ImageBlock (img_mediaType img) (img_data img)) <$> imageData.

Definition buildMessageContent (text : string)
    (imageData : list ImageAttachmentData) : AnthropicContent :=
  match imageData with
  | [] => PlainText text
  | _ =>
      let content := buildImageBlocks imageData in
      Blocks (if String.eqb text "" then content else content ++ [TextBlock text])
  end.

Definition nonEmptyAttachments (msg : ChatMessage) : bool :=
  match attachments msg with
  | Some (_ :: _) => true
  | _ => false
  end.

Definition toAnthropicMessages (input : StreamRequestInput)
    : list AnthropicMessage :=
  let messages :=
    (λ msg,
       let role' :=
         if Role_eqb (role msg) assistant then role_assistant else role_user in
       if Role_eqb (role msg) user && nonEmptyAttachments msg then
         let historyImages := readImageAttachments input (attachments msg) in
         {| a_role := role';
            a_content := buildMessageContent (content msg) historyImages |}
       else {| a_role := role'; a_content := PlainText (content msg) |})
    <$> filter (λ msg, Role_eqb (role msg) system = false) (history input) in
  let currentImages := readImageAttachments input (req_attachments input) in
  messages ++
    [{| a_role := role_user;
        a_content := buildMessageContent (userMessage input) currentImages |}].

(** The body of the [try] block of [parseSSELine], after [JSON.parse]. *)
Definition parseSSELine_body (event : Value)
    : Completion (list (StreamEvent Value)) :=
  type ← getProp (Some event) "type";
  if strictEqStr type "content_block_delta" then
    delta ← getProp (Some event) "delta";
    delta_type ← optProp delta "type";
    thinking ← optProp delta "thinking";
    if strictEqStr delta_type "thinking_delta" && truthy thinking then
      (* event.delta.thinking *)
      thinking' ← getProp delta "thinking";
      match thinking' with
      | Some d => mret [StreamReasoningEvent d]
      | None => mret []
      end
    else
      text ← optProp delta "text";
      if truthy text then
        text' ← getProp delta "text";
        match text' with
        | Some d => mret [StreamChunkEvent d]
        | None => mret []
        end
      else mret []
  else mret [].

Definition parseSSELine (JSON_parse : string → option Value)
    (jsonLine : string) : Completion (list (StreamEvent Value)) :=
  try_catch
    (event ← match JSON_parse jsonLine with
             | Some v => Normal v
             | None => Abrupt (Err "SyntaxError")
             end;
     parseSSELine_body event)
    (λ _, Normal []).

(** The frames the adapter recognizes: objects whose [type] is
    [content_block_delta]. *)
Definition isDeltaFrame (v : Value) : bool :=
  match v with
  | JObj fields => strictEqStr (lookup_field "type" fields) "content_block_delta"
  | _ => false
  end.

End Anthropic.

(** ** The Google adapter ([google-adapter.ts]) *)

Module Google.
Import JS.

(** One turn of [for (const part of parts)]: [None] is [continue]. *)
Definition part_event (part : Value)
    : Completion (option (StreamEvent Value)) :=
  text ← getProp (Some part) "text";
  match text with
  | Some d =>
      if truthy text then
        thought ← getProp (Some part) "thought";
        if truthy thought then mret (Some (StreamReasoningEvent d))
        else mret (Some (StreamChunkEvent d))
      else mret None
  | None => mret None
  end.

Fixpoint for_parts (parts : list Value) (events : list (StreamEvent Value))
    : Completion (list (StreamEvent Value)) :=
  match parts with
  | [] => mret events
  | part :: rest =>
      ev ← part_event part;
      match ev with
      | Some e => for_parts rest (events ++ [e])      (* events.push(e) *)
      | None => for_parts rest events
      end
  end.

Definition parseSSELine_body (parsed : Value)
    : Completion (list (StreamEvent Value)) :=
  candidates ← getProp (Some parsed) "candidates";
  candidate ← optIndex0 candidates;
  content ← optProp candidate "content";
  parts ← optProp content "parts";
  match parts with
  | Some parts' =>
      if truthy parts then
        items ← iterate parts';
        for_parts items []
      else mret []
  | None => mret []
  end.

Definition parseSSELine (JSON_parse : string → option Value)
    (jsonLine : string) : Completion (list (StreamEvent Value)) :=
  try_catch
    (parsed ← match JSON_parse jsonLine with
              | Some v => Normal v
              | None => Abrupt (Err "SyntaxError")
              end;
     parseSSELine_body parsed)
    (λ _, Normal []).

(** The parts of a frame: the elements of [candidates[0].content.parts] when
    that is an array, none otherwise. *)
Definition frame_parts (parsed : option Value) : list Value :=
  match parsed with
  | Some v =>
      match (candidates ← getProp (Some v) "candidates";
             candidate ← optIndex0 candidates;
             content ← optProp candidate "content";
             optProp content "parts") with
      | Normal (Some (JArr items)) => items
      | _ => []
      end
  | None => []
  end.

End Google.

(** ** The conversation store and the chat turn orchestrator

    [conversation-manager.ts] and [chat-service.ts]. The disk, the push
    channel to the renderer, the abort controllers and the platform's sources
    of identifiers, time and write failures are one explicit state, threaded
    through a state-and-exception monad. *)

Module Orchestrator.
Import JS.

Record ConversationMeta := {
  meta_id : string;
  title : string;
  meta_modelId : option string;
  meta_channelId : option string;
  meta_createdAt : Z;
  updatedAt : Z;
  contextDividers : option (list string);
  contextLength : option ContextLength;
  pinned : option bool;
}.

(** [Partial<Pick<ConversationMeta, ...>>]: [None] is an absent key. *)
Record MetaUpdates := {
  upd_title : option string;
  upd_modelId : option string;
  upd_channelId : option string;
  upd_contextDividers : option (list string);
  upd_contextLength : option ContextLength;
  upd_pinned : option bool;
}.

Definition noUpdates : MetaUpdates :=
  {| upd_title := None; upd_modelId := None; upd_channelId := None;
     upd_contextDividers := None; upd_contextLength := None;
     upd_pinned := None |}.

Record Channel := {
  chan_id : string;
  provider : string;
  chan_baseUrl : string;
}.

Record ChatSendInput := {
  conversationId : string;
  in_userMessage : string;
  channelId : string;
  in_modelId : string;
  in_systemMessage : option string;
  in_contextLength : option ContextLength;
  in_contextDividers : option (list string);
  in_attachments : option (list FileAttachment);
  in_thinkingEnabled : option bool;
}.

(** What [webContents.send] pushes to the renderer. *)
Inductive IpcEvent :=
  | STREAM_CHUNK (conversationId delta : string)
  | STREAM_REASONING (conversationId delta : string)
  | STREAM_COMPLETE (conversationId model : string) (messageId : option string)
  | STREAM_ERROR (conversationId error : string).

Definition isTerminal (ev : IpcEvent) : bool :=
  match ev with
  | STREAM_COMPLETE _ _ _ | STREAM_ERROR _ _ => true
  | _ => false
  end.


(** The collaborators that are not part of the code under study: the channel
    manager, the attachment service, [randomUUID], [Date.now] and the file
    system's verdict on each write, the last three as the sequence of their
    successive answers. *)
Record Env := {
  listChannels : list Channel;
  decryptApiKey : string → option string;      (* [None]: it throws *)
  isImageAttachment : string → bool;
  readAttachmentAsBase64 : string → string;
  randomUUID_at : nat → string;
  Date_now_at : nat → Z;
  write_fails_at : nat → bool;
}.

Record State := {
  index : list ConversationMeta;                (* conversations.json *)
  logs : gmap string (list ChatMessage);        (* conversations/{id}.jsonl *)
  sent : list IpcEvent;                         (* pushed so far, in order *)
  requests : list StreamRequestInput;           (* handed to buildStreamRequest *)
  signals : list bool;                          (* signal.aborted per controller *)
  activeControllers : gmap string nat;
  uuids_drawn : nat;
  clock_reads : nat;
  writes_tried : nat;
}.

Definition M (A : Type) : Type := State → Completion A * State.

#[global] Instance M_ret : MRet M := λ A a s, (Normal a, s).
#[global] Instance M_bind : MBind M := λ A B f m s,
  match m s with
  | (Normal a, s') => f a s'
  | (Abrupt e, s') => (Abrupt e, s')
  end.

Definition throw {A : Type} (e : Thrown) : M A := λ s, (Abrupt e, s).

Definition tryCatch {A : Type} (body : M A) (handler : Thrown → M A) : M A :=
  λ s, match body s with
       | (Normal a, s') => (Normal a, s')
       | (Abrupt e, s') => handler e s'
       end.

(** [try { body } finally { cleanup }] for a cleanup that cannot throw. *)
Definition tryFinally {A : Type} (body : M A) (cleanup : State → State) : M A :=
  λ s, let '(r, s') := body s in (r, cleanup s').

Definition settle {A : Type} (c : Completion A) : M A := λ s, (c, s).

Section WithEnv.
Variable env : Env.

Definition with_index (i : list ConversationMeta) (s : State) : State :=
  {| index := i; logs := logs s; sent := sent s; requests := requests s;
     signals := signals s; activeControllers := activeControllers s;
     uuids_drawn := uuids_drawn s; clock_reads := clock_reads s;
     writes_tried := writes_tried s |}.

Definition with_logs (l : gmap string (list ChatMessage)) (s : State) : State :=
  {| index := index s; logs := l; sent := sent s; requests := requests s;
     signals := signals s; activeControllers := activeControllers s;
     uuids_drawn := uuids_drawn s; clock_reads := clock_reads s;
     writes_tried := writes_tried s |}.

Definition with_sent (l : list IpcEvent) (s : State) : State :=
  {| index := index s; logs := logs s; sent := l; requests := requests s;
     signals := signals s; activeControllers := activeControllers s;
     uuids_drawn := uuids_drawn s; clock_reads := clock_reads s;
     writes_tried := writes_tried s |}.

Definition with_requests (l : list StreamRequestInput) (s : State) : State :=
  {| index := index s; logs := logs s; sent := sent s; requests := l;
     signals := signals s; activeControllers := activeControllers s;
     uuids_drawn := uuids_drawn s; clock_reads := clock_reads s;
     writes_tried := writes_tried s |}.

Definition with_controllers (sg : list bool) (ac : gmap string nat)
    (s : State) : State :=
  {| index := index s; logs := logs s; sent := sent s; requests := requests s;
     signals := sg; activeControllers := ac;
     uuids_drawn := uuids_drawn s; clock_reads := clock_reads s;
     writes_tried := writes_tried s |}.

Definition with_counters (u c w : nat) (s : State) : State :=
  {| index := index s; logs := logs s; sent := sent s; requests := requests s;
     signals := signals s; activeControllers := activeControllers s;
     uuids_drawn := u; clock_reads := c; writes_tried := w |}.

(** *** Platform primitives *)

Definition randomUUID : M string := λ s,
  (Normal (randomUUID_at env (uuids_drawn s)),
   with_counters (S (uuids_drawn s)) (clock_reads s) (writes_tried s) s).

Definition Date_now : M Z := λ s,
  (Normal (Date_now_at env (clock_reads s)),
   with_counters (uuids_drawn s) (S (clock_reads s)) (writes_tried s) s).

(** A write to the file system: it fails or it applies [effect]. *)
Definition writeFile (effect : State → State) (failure : string) : M unit := λ s,
  let s' := with_counters (uuids_drawn s) (clock_reads s) (S (writes_tried s)) s in
  if write_fails_at env (writes_tried s) then (Abrupt (Err failure), s')
  else (Normal (), effect s').

Definition webContents_send (ev : IpcEvent) : M unit := λ s,
  (Normal (), with_sent (sent s ++ [ev]) s).

(** *** conversation-manager.ts *)

Definition messages_of (s : State) (id : string) : list ChatMessage :=
  default [] (logs s !! id).

(** A log that does not exist reads as the empty list. A read that fails,
    which the code also turns into the empty list, is not modelled. *)
Definition getConversationMessages (id : string) : M (list ChatMessage) := λ s,
  (Normal (messages_of s id), s).

Definition appendMessage (id : string) (message : ChatMessage) : M unit :=
  writeFile
    (λ s, with_logs (<[id := messages_of s id ++ [message]]> (logs s)) s)
    "追加消息失败".

Definition saveConversationMessages (id : string) (messages : list ChatMessage)
    : M unit :=
  writeFile (λ s, with_logs (<[id := messages]> (logs s)) s) "保存消息失败".

Definition writeIndex (i : list ConversationMeta) : M unit :=
  writeFile (with_index i) "写入对话索引失败".

(** [{ ...existing, ...updates, updatedAt: now }] *)
Definition merge_meta (existing : ConversationMeta) (updates : MetaUpdates)
    (now : Z) : ConversationMeta :=
  {| meta_id := meta_id existing;
     title := default (title existing) (upd_title updates);
     meta_modelId :=
       match upd_modelId updates with
       | Some m => Some m | None => meta_modelId existing end;
     meta_channelId :=
       match upd_channelId updates with
       | Some c => Some c | None => meta_channelId existing end;
     meta_createdAt := meta_createdAt existing;
     updatedAt := now;
     contextDividers :=
       match upd_contextDividers updates with
       | Some d => Some d | None => contextDividers existing end;
     contextLength :=
       match upd_contextLength updates with
       | Some l => Some l | None => contextLength existing end;
     pinned :=
       match upd_pinned updates with
       | Some p => Some p | None => pinned existing end |}.

Definition updateConversationMeta (id : string) (updates : MetaUpdates)
    : M ConversationMeta := λ s,
  let conversations := index s in
  let idx :=
    Windowing.findIndex (λ c, String.eqb (meta_id c) id) conversations in
  if idx =? -1 then throw (Err ("对话不存在: " +:+ id)) s
  else
    match conversations !! Z.to_nat idx with
    | None => throw (Err "unreachable") s     (* [idx] is within the list *)
    | Some existing =>
        (now ← Date_now;
         let updated := merge_meta existing updates now in
         writeIndex (<[Z.to_nat idx := updated]> conversations);;
         mret updated) s
    end.

(** The attachment files that [deleteMessage] also removes are outside the
    state. *)
Definition deleteMessage (conversationId messageId : string)
    : M (list ChatMessage) :=
  messages ← getConversationMessages conversationId;
  let filtered :=
    filter (λ msg, String.eqb (msg_id msg) messageId = false) messages in
  if (length filtered =? length messages)%nat then mret messages
  else saveConversationMessages conversationId filtered;; mret filtered.

(** *** chat-service.ts *)

Definition getImageAttachmentData (attachments : option (list FileAttachment))
    : list ImageAttachmentData :=
  match attachments with
  | None | Some [] => []
  | Some atts =>
      (λ att, {| img_mediaType := mediaType att;
                 img_data := readAttachmentAsBase64 env (localPath att) |})
      <$> filter (λ att, isImageAttachment env (mediaType att) = true) atts
  end.

(** [new AbortController()]: a fresh signal, not aborted. *)
Definition newAbortController : M nat := λ s,
  (Normal (length (signals s)),
   with_controllers (signals s ++ [false]) (activeControllers s) s).

Definition signal_aborted (controller : nat) : M bool := λ s,
  (Normal (default false (signals s !! controller)), s).

Definition stopGeneration (conversationId : string) : M unit := λ s,
  match activeControllers s !! conversationId with
  | Some controller =>
      (Normal (),
       with_controllers (<[controller := true]> (signals s))
         (delete conversationId (activeControllers s)) s)
  | None => (Normal (), s)
  end.

(** The [onEvent] callback handed to [streamSSE], with the two accumulators
    it updates. *)
Definition onEvent (conversationId : string) (event : StreamEvent string)
    (acc : string * string) : M (string * string) :=
  match event with
  | StreamChunkEvent delta =>
      webContents_send (STREAM_CHUNK conversationId delta);;
      mret (acc.1 +:+ delta, acc.2)
  | StreamReasoningEvent delta =>
      webContents_send (STREAM_REASONING conversationId delta);;
      mret (acc.1, acc.2 +:+ delta)
  | _ => mret acc
  end.

(** What happens while [sendMessage] is suspended at [await streamSSE(...)]:
    the stream reader delivers events to [onEvent], and the renderer may ask
    to stop a conversation. *)
Inductive AwaitStep :=
  | Deliver (event : StreamEvent string)
  | StopRequested (conversationId : string).

(** One run of the part of the [try] block that is not under study
    ([getAdapter], [buildStreamRequest], [streamSSE]): the steps taken while
    it is pending and how it settles, with the accumulated content and
    reasoning or with a thrown value. *)
Record StreamRun := {
  steps : list AwaitStep;
  settled : Completion (string * string);
}.

Fixpoint await_stream (conversationId : string) (todo : list AwaitStep)
    (acc : string * string) : M (string * string) :=
  match todo with
  | [] => mret acc
  | Deliver event :: rest =>
      acc' ← onEvent conversationId event acc;
      await_stream conversationId rest acc'
  | StopRequested cid :: rest =>
      stopGeneration cid;;
      await_stream conversationId rest acc
  end.

Definition nonEmpty (s : string) : option string :=
  if String.eqb s "" then None else Some s.

Definition touch_meta (conversationId : string) : M unit :=
  tryCatch (updateConversationMeta conversationId noUpdates;; mret ())
           (λ _, mret ()).

(** The [try] block of [sendMessage] from the point where [streamSSE]
    settles. *)
Definition sendMessage_try (conversationId modelId : string) (run : StreamRun)
    : M unit :=
  result ← settle (settled run);
  (* 7. the assistant message *)
  assistantMsgId ← randomUUID;
  now ← Date_now;
  let assistantMsg :=
    {| msg_id := assistantMsgId; role := assistant; content := result.1;
       createdAt := now; model := Some modelId;
       reasoning := nonEmpty result.2;
       attachments := None; stopped := None |} in
  appendMessage conversationId assistantMsg;;
  touch_meta conversationId;;
  webContents_send
    (STREAM_COMPLETE conversationId modelId (Some assistantMsgId)).

(** The [catch] block of [sendMessage]. *)
Definition sendMessage_catch (conversationId modelId : string)
    (controller : nat) (accumulatedContent accumulatedReasoning : string)
    (error : Thrown) : M unit :=
  aborted ← signal_aborted controller;
  if (aborted : bool) then
    if negb (String.eqb accumulatedContent "") then
      assistantMsgId ← randomUUID;
      now ← Date_now;
      let partialMsg :=
        {| msg_id := assistantMsgId; role := assistant;
           content := accumulatedContent; createdAt := now;
           model := Some modelId;
           reasoning := nonEmpty accumulatedReasoning;
           attachments := None; stopped := Some true |} in
      appendMessage conversationId partialMsg;;
      touch_meta conversationId;;
      webContents_send
        (STREAM_COMPLETE conversationId modelId (Some assistantMsgId))
    else
      webContents_send (STREAM_COMPLETE conversationId modelId None)
  else
    let errorMessage :=
      match error with
      | Err message => message
      | NotAnError => "未知错误"
      end in
    webContents_send (STREAM_ERROR conversationId errorMessage).

Definition register_controller (conversationId : string) (controller : nat)
    : M unit := λ s,
  (Normal (),
   with_controllers (signals s)
     (<[conversationId := controller]> (activeControllers s)) s).

Definition unregister_controller (conversationId : string) (s : State)
    : State :=
  with_controllers (signals s) (delete conversationId (activeControllers s)) s.

(** The input of [adapter.buildStreamRequest] is kept in [requests]. *)
Definition build_request (input : StreamRequestInput) : M unit := λ s,
  (Normal (), with_requests (requests s ++ [input]) s).

Definition sendMessage (input : ChatSendInput) (run : StreamRun) : M unit :=
  let conversationId := conversationId input in
  let modelId := in_modelId input in
  (* 1. the channel *)
  match List.find (λ c, String.eqb (chan_id c) (channelId input))
                  (listChannels env) with
  | None => webContents_send (STREAM_ERROR conversationId "渠道不存在")
  | Some channel =>
  (* 2. the API key *)
  match decryptApiKey env (channelId input) with
  | None => webContents_send (STREAM_ERROR conversationId "解密 API Key 失败")
  | Some apiKey =>
  (* 3. the user message goes to the log *)
  userMsgId ← randomUUID;
  now ← Date_now;
  let userMsg :=
    {| msg_id := userMsgId; role := user; content := in_userMessage input;
       createdAt := now; model := None; reasoning := None;
       attachments :=
         match in_attachments input with
         | Some (_ :: _) => in_attachments input
         | _ => None
         end;
       stopped := None |} in
  appendMessage conversationId userMsg;;
  (* 4. the full history is read back and windowed *)
  fullHistory ← getConversationMessages conversationId;
  let filteredHistory :=
    Windowing.filterHistory fullHistory (in_contextDividers input)
      (in_contextLength input) in
  (* 5. the abort controller *)
  controller ← newAbortController;
  register_controller conversationId controller;;
  tryFinally
    ((* 6. the request is built and streamed. The accumulators are declared
        outside the [try]; the callbacks that fill them run while the stream
        is pending and do not throw, so they are sequenced before the
        [try]/[catch] of the settled call. *)
     build_request
       {| baseUrl := chan_baseUrl channel; apiKey := apiKey;
          modelId := modelId; history := filteredHistory;
          userMessage := in_userMessage input;
          systemMessage := in_systemMessage input;
          req_attachments := in_attachments input;
          readImageAttachments := getImageAttachmentData;
          thinkingEnabled := in_thinkingEnabled input |};;
     acc ← await_stream conversationId (steps run) ("", "");
     tryCatch
       (sendMessage_try conversationId modelId run)
       (sendMessage_catch conversationId modelId controller acc.1 acc.2))
    (unregister_controller conversationId)
  end
  end.

End WithEnv.

(** The visible text, the reasoning text and the pushes that the deliveries
    of a run add up to, and whether a run asks to stop a conversation. *)
Fixpoint accumulated_content (todo : list AwaitStep) : string :=
  match todo with
  | [] => ""
  | Deliver (StreamChunkEvent delta) :: rest => delta +:+ accumulated_content rest
  | _ :: rest => accumulated_content rest
  end.

Fixpoint accumulated_reasoning (todo : list AwaitStep) : string :=
  match todo with
  | [] => ""
  | Deliver (StreamReasoningEvent delta) :: rest =>
      delta +:+ accumulated_reasoning rest
  | _ :: rest => accumulated_reasoning rest
  end.

Fixpoint relayed (conversationId : string) (todo : list AwaitStep)
    : list IpcEvent :=
  match todo with
  | [] => []
  | Deliver (StreamChunkEvent delta) :: rest =>
      STREAM_CHUNK conversationId delta :: relayed conversationId rest
  | Deliver (StreamReasoningEvent delta) :: rest =>
      STREAM_REASONING conversationId delta :: relayed conversationId rest
  | _ :: rest => relayed conversationId rest
  end.

Definition stop_requested (conversationId : string) (todo : list AwaitStep)
    : bool :=
  existsb (λ step, match step with
                   | StopRequested cid => String.eqb cid conversationId
                   | Deliver _ => false
                   end) todo.

(** [pushes m P]: from every state, [m] appends some events [evs] to what
    was pushed before, and its completion and [evs] satisfy [P]. *)
Definition pushes {A : Type} (m : M A)
    (P : Completion A → list IpcEvent → Prop) : Prop :=
  ∀ s, ∃ evs, sent (m s).2 = sent s ++ evs ∧ P (m s).1 evs.

(** A computation that completes normally from every state. *)
Definition completes {A : Type} (m : M A) : Prop :=
  ∀ s, ∃ a, (m s).1 = Normal a.

(** A computation that pushes nothing. *)
Definition silent {A : Type} (m : M A) : Prop := pushes m (λ _ evs, evs = []).

(** How many of the pushed events are terminal. *)
Definition terminalCount (evs : list IpcEvent) : nat :=
  length (filter (λ ev, isTerminal ev = true) evs).

Definition relays_only (evs : list IpcEvent) : Prop :=
  Forall (λ ev, isTerminal ev = false) evs.

(** One terminal event when the computation completes normally, none when
    it throws. *)
Definition one_if_normal {A : Type} (r : Completion A) (evs : list IpcEvent)
    : Prop :=
  terminalCount evs = match r with Normal _ => 1%nat | Abrupt _ => 0%nat end.

End Orchestrator.

(** ** Title generation ([chat-service.ts], generateTitle)

    [trim], the quote-stripping [replace] and [slice] work on the UTF-16 code
    units of the title, so the title is a list of code units here. *)

Module Title.
Import JS Orchestrator.

Definition JsString : Type := list Z.

Definition MAX_TITLE_LENGTH : nat := 20.

(** The code units of a text that is ASCII. *)
Definition units (text : string) : JsString :=
  (λ c, Z.of_nat (nat_of_ascii c)) <$> String.list_ascii_of_string text.

(** What [String.prototype.trim] removes: WhiteSpace and LineTerminator. *)
Definition isWhiteSpace (c : Z) : bool :=
  (c =? 9) || (c =? 10) || (c =? 11) || (c =? 12) || (c =? 13) || (c =? 32)
  || (c =? 160) || (c =? 5760) || ((8192 <=? c) && (c <=? 8202))
  || (c =? 8232) || (c =? 8233) || (c =? 8239) || (c =? 8287)
  || (c =? 12288) || (c =? 65279).

(** The character class of the regular expression: the double and the single
    quote. *)
Definition isQuote (c : Z) : bool := (c =? 34) || (c =? 39).

Fixpoint dropWhile {A : Type} (p : A → bool) (l : list A) : list A :=
  match l with
  | [] => []
  | x :: l' => if p x then dropWhile p l' else l
  end.

Definition dropWhileEnd {A : Type} (p : A → bool) (l : list A) : list A :=
  reverse (dropWhile p (reverse l)).

Definition trim (s : JsString) : JsString :=
  dropWhileEnd isWhiteSpace (dropWhile isWhiteSpace s).

(** [s.replace(/^[Q]+|[Q]+$/g, '')]: the first alternative matches the run of
    quotes at the start, the second the run of quotes that reaches the end;
    runs in between match neither. *)
Definition stripQuotes (s : JsString) : JsString :=
  dropWhileEnd isQuote (dropWhile isQuote s).

(** A text whose first and last code units are neither quotes nor white
    space. *)
Definition cleanEnds (body : JsString) : bool :=
  match head body, last body with
  | Some x, Some y =>
      negb (isQuote x || isWhiteSpace x) && negb (isQuote y || isWhiteSpace y)
  | _, _ => false
  end.

(** [x || null] for a string [x] *)
Definition orNull (s : JsString) : option JsString :=
  match s with
  | [] => None
  | _ => Some s
  end.

Record GenerateTitleInput := {
  t_userMessage : string;
  t_channelId : string;
  t_modelId : string;
}.

(** [fetched] is how [await fetchTitle(request, adapter)], with the
    [getAdapter] and [buildTitleRequest] before it, settles: the title or
    [null], or a thrown value. *)
Definition generateTitle (env : Env) (input : GenerateTitleInput)
    (fetched : Completion (option JsString)) : Completion (option JsString) :=
  match List.find (λ c, String.eqb (chan_id c) (t_channelId input))
                  (listChannels env) with
  | None => Normal None
  | Some channel =>
      match decryptApiKey env (t_channelId input) with
      | None => Normal None
      | Some apiKey =>
          try_catch
            (title ← fetched;
             match title with
             | None | Some [] => Normal None
             | Some title =>
                 let cleaned := trim (stripQuotes (trim title)) in
                 Normal (orNull (take MAX_TITLE_LENGTH cleaned))
             end)
            (λ _, Normal None)
      end
  end.

End Title.

(** ** The properties of the specification, as it words them

    Where a property is compared with the code, its wording is kept as a
    predicate of its own. *)

Module Stated.
Import JS Orchestrator.

Definition occursIn (d : string) (H : list ChatMessage) : bool :=
  existsb (λ m, String.eqb (msg_id m) d) H.

(** "the last id in D that occurs in H" *)
Definition lastOccurringDivider (D : list string) (H : list ChatMessage)
    : option string :=
  last (filter (λ d, occursIn d H = true) D).

(** [p] is the position of the message of [H] whose id is [d]. *)
Definition positionOf (d : string) (H : list ChatMessage) (p : nat) : Prop :=
  (∃ m, H !! p = Some m ∧ msg_id m = d) ∧
  ∀ j m', (j < p)%nat → H !! j = Some m' → msg_id m' ≠ d.

(** [W] occupies positions of [H] that all lie strictly after [p]. *)
Definition strictlyAfter (p : nat) (W H : list ChatMessage) : Prop :=
  ∃ pre, H = pre ++ W ∧ (p < length pre)%nat.

(** "window(H, D, N) contains at most N user-authored messages, and every
    message in the result appears after the last id in D that occurs in H" *)
Definition window_property (H : list ChatMessage) (D : list string) (N : Z)
    : Prop :=
  let W := Windowing.filterHistory H (Some D) (Some (Rounds N)) in
  Windowing.countUser W ≤ N ∧
  ∀ d p, lastOccurringDivider D H = Some d → positionOf d H p →
         strictlyAfter p W H.

(** "exactly one terminal event per turn" *)
Definition exactly_one_terminal (env : Env) (input : ChatSendInput)
    (run : StreamRun) (s : State) : Prop :=
  ∃ evs, sent (sendMessage env input run s).2 = sent s ++ evs ∧
         terminalCount evs = 1%nat.


Definition updatedAt_of (s : State) (id : string) : option Z :=
  updatedAt <$> List.find (λ c, String.eqb (meta_id c) id) (index s).

(** "updatedAt strictly increases on every mutation of this record or its
    message log", for one operation of the store. *)
Definition updatedAt_increases {A : Type} (op : M A) (s : State) (id : string)
    : Prop :=
  ∀ a s' t, op s = (Normal a, s') → updatedAt_of s id = Some t →
            ∃ t', updatedAt_of s' id = Some t' ∧ t < t'.

(** "a single line may yield zero, one, or two events" *)
Definition at_most_two_events
    (parseSSELine : (string → option Value) → string →
                    Completion (list (StreamEvent Value)))
    (JSON_parse : string → option Value) (jsonLine : string) : Prop :=
  ∃ evs, parseSSELine JSON_parse jsonLine = Normal evs ∧ (length evs ≤ 2)%nat.

End Stated.

(** ** Concrete conversations, environments and frames *)

Module Scenario.
Import JS Orchestrator.

Definition message (id : string) (r : Role) (text : string) : ChatMessage :=
  {| msg_id := id; role := r; content := text; createdAt := 1;
     model := None; reasoning := None; attachments := None; stopped := None |}.

Definition hi : ChatMessage := message "m1" user "hi".
Definition hello : ChatMessage := message "m2" assistant "hello".

(** A platform whose disk accepts every write. *)
Definition env_ok : Env :=
  {| listChannels :=
       [{| chan_id := "ch"; provider := "anthropic";
           chan_baseUrl := "https://api.anthropic.com" |}];
     decryptApiKey := λ _, Some "sk-test";
     isImageAttachment := λ _, true;
     readAttachmentAsBase64 := λ _, "";
     randomUUID_at := λ n, "uuid-" +:+ pretty n;
     Date_now_at := λ n, 1000 + Z.of_nat n;
     write_fails_at := λ _, false |}.

(** The same platform with a disk that refuses every write. *)
Definition env_disk_full : Env :=
  {| listChannels := listChannels env_ok;
     decryptApiKey := decryptApiKey env_ok;
     isImageAttachment := isImageAttachment env_ok;
     readAttachmentAsBase64 := readAttachmentAsBase64 env_ok;
     randomUUID_at := randomUUID_at env_ok;
     Date_now_at := Date_now_at env_ok;
     write_fails_at := λ _, true |}.

(** The same platform without any channel. *)
Definition env_no_channel : Env :=
  {| listChannels := [];
     decryptApiKey := decryptApiKey env_ok;
     isImageAttachment := isImageAttachment env_ok;
     readAttachmentAsBase64 := readAttachmentAsBase64 env_ok;
     randomUUID_at := randomUUID_at env_ok;
     Date_now_at := Date_now_at env_ok;
     write_fails_at := write_fails_at env_ok |}.

Definition meta_c1 : ConversationMeta :=
  {| meta_id := "c1"; title := "greeting"; meta_modelId := None;
     meta_channelId := Some "ch"; meta_createdAt := 400; updatedAt := 500;
     contextDividers := None; contextLength := None; pinned := None |}.

(** Conversation [c1] holds the round ([hi], [hello]); nothing is in flight. *)
Definition state_c1 : State :=
  {| index := [meta_c1];
     logs := {[ "c1" := [hi; hello] ]};
     sent := []; requests := []; signals := []; activeControllers := ∅;
     uuids_drawn := 0; clock_reads := 0; writes_tried := 0 |}.

Definition send_2plus2 : ChatSendInput :=
  {| conversationId := "c1"; in_userMessage := "what's 2+2?";
     channelId := "ch"; in_modelId := "claude";
     in_systemMessage := None; in_contextLength := Some (Rounds 1);
     in_contextDividers := None; in_attachments := None;
     in_thinkingEnabled := None |}.

(** The backend answers "4". *)
Definition run_answer : StreamRun :=
  {| steps := [Deliver (StreamChunkEvent "4")];
     settled := Normal ("4", "") |}.

(** The user stops the turn after the chunk "4" has arrived. *)
Definition run_stopped : StreamRun :=
  {| steps := [Deliver (StreamChunkEvent "4"); StopRequested "c1"];
     settled := Abrupt (Err "The operation was aborted") |}.


(** A Gemini frame with three parts. *)
Definition frame_three_parts : string :=
  JSONText.dq
    "{'candidates':[{'content':{'parts':[{'text':'a','thought':true},{'text':'b'},{'text':'c'}]}}]}".

(** A Gemini frame with a thought part and a text part. *)
Definition frame_thought_and_text : string :=
  JSONText.dq
    "{'candidates':[{'content':{'parts':[{'text':'hm','thought':true},{'text':'4'}]}}]}".

End Scenario.

(** ** The rest of the conversation store ([conversation-manager.ts]) and
    its caller for pinning ([ipc.ts]) *)

Module Store.
Import JS Orchestrator.

(** [Array.prototype.slice(start)] for any integer [start]: a negative start
    counts from the end, and both ends are clamped. *)
Definition slice {A : Type} (start : Z) (l : list A) : list A :=
  let len := Z.of_nat (length l) in
  let k := if start <? 0 then Z.max (len + start) 0 else Z.min start len in
  drop (Z.to_nat k) l.

(** [Array.prototype.slice(0, end)] for an end that is not negative. *)
Definition slice_to {A : Type} (stop : Z) (l : list A) : list A :=
  take (Z.to_nat stop) l.

Record RecentMessagesResult := {
  messages : list ChatMessage;
  total : Z;
  hasMore : bool;
}.

(** A log that does not exist is told apart from an empty one here, as the
    code does with [existsSync]. *)
Definition getRecentMessages (id : string) (limit : Z)
    : M RecentMessagesResult := λ s,
  match logs s !! id with
  | None => (Normal {| messages := []; total := 0; hasMore := false |}, s)
  | Some lines =>
      let total := Z.of_nat (length lines) in
      if total <=? limit then
        (Normal {| messages := lines; total := total; hasMore := false |}, s)
      else
        (Normal {| messages := slice (- limit) lines; total := total;
                   hasMore := true |}, s)
  end.

(** [conversations.sort((a, b) => b.updatedAt - a.updatedAt)]. The sort of
    the platform is stable, and a stable sort by a comparator has one result;
    it is computed here by insertion from the right, an element going in
    front of the first one that the comparator does not put before it. *)
Fixpoint insert_by_updatedAt (a : ConversationMeta)
    (sorted : list ConversationMeta) : list ConversationMeta :=
  match sorted with
  | [] => [a]
  | b :: rest =>
      if updatedAt b - updatedAt a <=? 0 then a :: sorted
      else b :: insert_by_updatedAt a rest
  end.

Definition sort_by_updatedAt (conversations : list ConversationMeta)
    : list ConversationMeta :=
  foldr insert_by_updatedAt [] conversations.

Definition listConversations : M (list ConversationMeta) := λ s,
  (Normal (sort_by_updatedAt (index s)), s).

Section WithEnv.
Variable env : Env.

(** [title || '...']: the default also replaces an empty title. *)
Definition createConversation (title modelId channelId : option string)
    : M ConversationMeta := λ s,
  let conversations := index s in
  (now ← Date_now env;
   id ← randomUUID env;
   let meta :=
     {| meta_id := id;
        Orchestrator.title :=
          match title with
          | Some t => if String.eqb t "" then "新对话" else t
          | None => "新对话"
          end;
        meta_modelId := modelId; meta_channelId := channelId;
        meta_createdAt := now; updatedAt := now;
        contextDividers := None; contextLength := None; pinned := None |} in
   writeIndex env (conversations ++ [meta]);;
   mret meta) s.

(** [if (existsSync(filePath)) { try { unlinkSync(filePath) } catch { ... } }]:
    a failure to remove the log is caught and only reported. *)
Definition removeLog (id : string) : M unit := λ s,
  match logs s !! id with
  | Some _ =>
      tryCatch
        (writeFile env (λ s', with_logs (delete id (logs s')) s') "unlink")
        (λ _, mret ()) s
  | None => (Normal (), s)
  end.

(** The attachment directory that [deleteConversation] also removes is
    outside the state. *)
Definition deleteConversation (id : string) : M unit := λ s,
  let conversations := index s in
  let idx :=
    Windowing.findIndex (λ c, String.eqb (meta_id c) id) conversations in
  if idx =? -1 then throw (Err ("对话不存在: " +:+ id)) s
  else
    (writeIndex env (delete (Z.to_nat idx) conversations);;
     removeLog id) s.

(** The attachment files of the removed messages, and with them the flag
    that keeps those of the first one, are outside the state. *)
Definition truncateMessagesFrom (conversationId messageId : string)
    : M (list ChatMessage) :=
  messages ← getConversationMessages conversationId;
  let startIndex :=
    Windowing.findIndex (λ msg, String.eqb (msg_id msg) messageId) messages in
  if startIndex =? -1 then mret messages
  else
    let kept := slice_to startIndex messages in
    saveConversationMessages env conversationId kept;;
    mret kept.

Definition updateContextDividers (conversationId : string)
    (dividers : list string) : M ConversationMeta :=
  updateConversationMeta env conversationId
    {| upd_title := None; upd_modelId := None; upd_channelId := None;
       upd_contextDividers := Some dividers; upd_contextLength := None;
       upd_pinned := None |}.

(** The handler of [TOGGLE_PIN] in [ipc.ts]: [!current.pinned] is [true] for
    a conversation that was never pinned. *)
Definition togglePin (id : string) : M ConversationMeta :=
  conversations ← listConversations;
  match List.find (λ c, String.eqb (meta_id c) id) conversations with
  | None => throw (Err ("对话不存在: " +:+ id))
  | Some current =>
      updateConversationMeta env id
        {| upd_title := None; upd_modelId := None; upd_channelId := None;
           upd_contextDividers := None; upd_contextLength := None;
           upd_pinned := Some (negb (default false (pinned current))) |}
  end.

End WithEnv.

(** Every registered controller has been allocated. *)
Definition controllers_wf (s : State) : Prop :=
  ∀ id k, activeControllers s !! id = Some k → (k < length (signals s))%nat.

(** What a computation may do to the message logs when it works for the
    conversation [cid]: leave the other logs alone and extend that of [cid]. *)
Definition appends_only (cid : string) (s s' : State) : Prop :=
  (∀ id, id ≠ cid → logs s' !! id = logs s !! id) ∧
  messages_of s cid `prefix_of` messages_of s' cid.

(** [hoare P m Q]: from a state that satisfies [P], the completion of [m]
    and the state it leaves satisfy [Q]. *)
Definition hoare {A : Type} (P : State → Prop) (m : M A)
    (Q : Completion A → State → Prop) : Prop :=
  ∀ s, P s → Q (m s).1 (m s).2.

(** A step under which an invariant [I] of the state is kept whatever the
    completion. *)
Definition keeps (I : State → Prop) {A : Type} (m : M A) : Prop :=
  hoare I m (λ _, I).

(** [I] looks only at the part of the state that [same] compares. *)
Definition respects (same : State → State → Prop) (I : State → Prop) : Prop :=
  ∀ s s', same s s' → I s → I s'.

Definition same_logs (s s' : State) : Prop := logs s' = logs s.

Definition same_controllers (s s' : State) : Prop :=
  signals s' = signals s ∧ activeControllers s' = activeControllers s.


(** Newest first, the order of [listConversations]. *)
Definition newer_first (a b : ConversationMeta) : Prop :=
  updatedAt b ≤ updatedAt a.

End Store.

(** ** The divider handlers of the chat view ([ChatView], the parts that
    compute the new divider list) *)

Module ChatView.

Definition includes (xs : list string) (x : string) : bool :=
  existsb (String.eqb x) xs.

Definition without (xs : list string) (x : string) : list string :=
  filter (λ id, String.eqb id x = false) xs.

(** [handleClearContext]: the divider of the last message is removed if it
    is there and appended if it is not; nothing changes without a message. *)
Definition handleClearContext (currentMessages : list ChatMessage)
    (contextDividers : list string) : list string :=
  match last currentMessages with
  | None => contextDividers
  | Some lastMessage =>
      let lastMessageId := msg_id lastMessage in
      if includes contextDividers lastMessageId
      then without contextDividers lastMessageId
      else contextDividers ++ [lastMessageId]
  end.

(** [handleDeleteDivider] *)
Definition handleDeleteDivider (contextDividers : list string)
    (messageId : string) : list string :=
  without contextDividers messageId.

(** [handleDeleteMessage], the divider list it leaves. *)
Definition handleDeleteMessage (contextDividers : list string)
    (messageId : string) : list string :=
  if includes contextDividers messageId
  then without contextDividers messageId
  else contextDividers.

End ChatView.

(** ** The rest of the adapters: Google message conversion and the title
    responses *)

Module GoogleRequest.
Import JS.

Inductive GooglePart :=
  | TextPart (text : string)
  | InlineData (mime_type data : string).

Inductive GoogleRole := role_user | role_model.

Record GoogleContent := {
  g_role : GoogleRole;
  g_parts : list GooglePart;
}.

Definition buildImageParts (imageData : list ImageAttachmentData)
    : list GooglePart :=
  (λ img, InlineData (img_mediaType img) (img_data img)) <$> imageData.

Definition buildMessageParts (text : string)
    (imageData : list ImageAttachmentData) : list GooglePart :=
  let parts := buildImageParts imageData in
  if String.eqb text "" then parts else parts ++ [TextPart text].

Definition toGoogleContents (input : StreamRequestInput)
    : list GoogleContent :=
  let contents :=
    (λ msg,
       let role' :=
         if Role_eqb (role msg) assistant then role_model else role_user in
       if Role_eqb (role msg) user && Anthropic.nonEmptyAttachments msg then
         let historyImages := readImageAttachments input (attachments msg) in
         {| g_role := role';
            g_parts := buildMessageParts (content msg) historyImages |}
       else {| g_role := role'; g_parts := [TextPart (content msg)] |})
    <$> filter (λ msg, Role_eqb (role msg) system = false) (history input) in
  let currentImages := readImageAttachments input (req_attachments input) in
  contents ++
    [{| g_role := role_user;
        g_parts := buildMessageParts (userMessage input) currentImages |}].

(** [x ?? null]: [None] is [null] in the result. *)
Definition orNull (v : option Value) : option Value :=
  match v with
  | None | Some JNull => None
  | Some x => Some x
  end.

(** [data.candidates?.[0]?.content?.parts?.[0]?.text ?? null] *)
Definition parseTitleResponse (responseBody : option Value)
    : Completion (option Value) :=
  candidates ← getProp responseBody "candidates";
  candidate ← optIndex0 candidates;
  content ← optProp candidate "content";
  parts ← optProp content "parts";
  part ← optIndex0 parts;
  text ← optProp part "text";
  mret (orNull text).

End GoogleRequest.

Module AnthropicRequest.
Import JS.

(** [data.content?.[0]?.text ?? null] *)
Definition parseTitleResponse (responseBody : option Value)
    : Completion (option Value) :=
  content ← getProp responseBody "content";
  block ← optIndex0 content;
  text ← optProp block "text";
  mret (GoogleRequest.orNull text).

End AnthropicRequest.

(** An event that carries a piece of text that is not empty. *)
Definition carriesText (ev : StreamEvent JS.Value) : bool :=
  match ev with
  | StreamChunkEvent d | StreamReasoningEvent d => JS.truthy (Some d)
  | _ => false
  end.

(** [null] or [undefined]. *)
Definition nullish (v : option JS.Value) : bool :=
  match v with
  | None | Some JS.JNull => true
  | _ => false
  end.

(** ** Further scenarios *)

Module Scenario2.
Import JS Orchestrator.

(** The stream call fails after the chunk "4" has arrived, and nobody has
    asked to stop. *)
Definition run_failed : StreamRun :=
  {| steps := [Deliver (StreamChunkEvent "4")];
     settled := Abrupt (Err "HTTP 500") |}.

(** The state of [Scenario.state_c1] while a turn of "c1" is streaming. *)
Definition state_streaming : State :=
  with_controllers [false] {[ "c1" := 0%nat ]} Scenario.state_c1.

(** The only channel of [Scenario.env_ok]. *)
Definition channel_ch : Channel :=
  {| chan_id := "ch"; provider := "anthropic";
     chan_baseUrl := "https://api.anthropic.com" |}.



(** A conversation that already has the id that [Scenario.env_ok] draws
    next. *)
Definition meta_trip : ConversationMeta :=
  {| meta_id := "uuid-0"; title := "Trip"; meta_modelId := None;
     meta_channelId := None; meta_createdAt := 100; updatedAt := 100;
     contextDividers := None; contextLength := None; pinned := None |}.

Definition state_uuid_taken : State :=
  with_index [Scenario.meta_c1; meta_trip] Scenario.state_c1.

End Scenario2.

(** * Properties *)

(** ** History windowing *)

Section WindowingFacts.
Import Windowing.

Lemma findIndex_bounds {A} (p : A → bool) (l : list A) :
  -1 ≤ findIndex p l < Z.of_nat (length l).
Proof.
  induction l as [|x l IH]; simpl; [lia|].
  destruct (p x); [lia|].
  destruct (Z.ltb_spec (findIndex p l) 0); lia.
Qed.

Lemma findIndex_first {A} (p : A → bool) (l : list A) (i : nat) (x : A) :
  l !! i = Some x → p x = true →
  (∀ j y, (j < i)%nat → l !! j = Some y → p y = false) →
  findIndex p l = Z.of_nat i.
Proof.
  revert i. induction l as [|a l IH]; intros i Hi Hp Hfirst; [done|].
  destruct i as [|i]; simpl in *.
  - injection Hi as ->. by rewrite Hp.
  - rewrite (Hfirst 0%nat a); [|lia|done].
    rewrite (IH i); [|done..|].
    + destruct (Z.ltb_spec (Z.of_nat i) 0); lia.
    + intros j y Hj Hy. apply (Hfirst (S j) y); [lia|done].
Qed.

Lemma countUser_cons (m : ChatMessage) (l : list ChatMessage) :
  countUser (m :: l) = (if isUser m then 1 else 0) + countUser l.
Proof.
  unfold countUser. rewrite filter_cons.
  destruct (decide (isUser m = true)) as [->|Hn]; simpl.
  - lia.
  - destruct (isUser m); [done|lia].
Qed.

Lemma collectRounds_drop filtered N n rc :
  (n ≤ length filtered)%nat →
  ∃ k, (k ≤ n)%nat ∧
       collectRounds filtered N n rc (drop n filtered) = drop k filtered.
Proof.
  revert rc. induction n as [|i IH]; intros rc Hn; simpl.
  - exists 0%nat. split; [lia|done].
  - destruct (lookup_lt_is_Some_2 filtered i) as [msg Hmsg]; [lia|].
    rewrite Hmsg, <- (drop_S _ _ _ Hmsg).
    destruct (isUser msg).
    + destruct (rc + 1 >=? N).
      * exists i. split; [lia|done].
      * destruct (IH (rc + 1)) as (k & Hk & ->); [lia|]. exists k. split; [lia|done].
    + destruct (IH rc) as (k & Hk & ->); [lia|]. exists k. split; [lia|done].
Qed.

Lemma collectRounds_count filtered N n rc :
  (n ≤ length filtered)%nat →
  rc = countUser (drop n filtered) → rc < N →
  countUser (collectRounds filtered N n rc (drop n filtered)) ≤ N.
Proof.
  revert rc. induction n as [|i IH]; intros rc Hn Hrc Hlt; simpl.
  - lia.
  - destruct (lookup_lt_is_Some_2 filtered i) as [msg Hmsg]; [lia|].
    rewrite Hmsg, <- (drop_S _ _ _ Hmsg).
    pose proof (countUser_cons msg (drop (S i) filtered)) as Hc.
    rewrite <- (drop_S _ _ _ Hmsg) in Hc.
    destruct (isUser msg).
    + destruct (Z.geb_spec (rc + 1) N).
      * lia.
      * apply IH; lia.
    + apply IH; lia.
Qed.

Lemma filterHistory_rounds H D N :
  0 < N →
  filterHistory H D (Some (Rounds N)) =
  collectRounds (afterDivider H D) N (length (afterDivider H D)) 0 [].
Proof.
  intros HN. unfold afterDivider, filterHistory.
  destruct (Z.leb_spec 0 N); [|lia].
  destruct (Z.eqb_spec N 0); [lia|]. done.
Qed.

Lemma afterDivider_drop H D :
  ∃ k, afterDivider H D = drop k H ∧
       ∀ ds d, D = Some ds → last ds = Some d →
               0 ≤ findIndex (λ msg, String.eqb (msg_id msg) d) H →
               k = Z.to_nat (findIndex (λ msg, String.eqb (msg_id msg) d) H + 1).
Proof.
  unfold afterDivider, filterHistory.
  destruct D as [ds|]; [|exists 0%nat; split; [done|congruence]].
  destruct (last ds) as [d|] eqn:Hlast; [|exists 0%nat; split; [done|congruence]].
  destruct (Z.leb_spec 0 (findIndex (λ msg, String.eqb (msg_id msg) d) H)).
  - eexists. split; [reflexivity|]. intros ds' d' [= <-] Hd' _.
    rewrite Hlast in Hd'. by injection Hd' as <-.
  - exists 0%nat. split; [done|]. intros ds' d' [= <-] Hd' Hge.
    rewrite Hlast in Hd'. injection Hd' as <-. lia.
Qed.

Lemma filterHistory_drop H D cl :
  ∃ k, filterHistory H D cl = drop k H.
Proof.
  destruct (afterDivider_drop H D) as (k1 & Hk1 & _).
  destruct cl as [[N|]|]; [|exists k1; exact Hk1..].
  destruct (Z.ltb_spec 0 N) as [Hpos|Hnpos].
  - rewrite filterHistory_rounds by done.
    destruct (collectRounds_drop (afterDivider H D) N (length (afterDivider H D)) 0)
      as (k & _ & Hk); [lia|].
    rewrite drop_all in Hk. rewrite Hk, Hk1, drop_drop. eauto.
  - unfold afterDivider, filterHistory in Hk1 |- *.
    destruct (Z.leb_spec 0 N); [|exists k1; exact Hk1].
    destruct (Z.eqb_spec N 0); [|lia].
    exists (length H). by rewrite drop_all.
Qed.

(** C10. For every history, divider list and context-length setting, the
    window is a contiguous suffix of the history: the history with some
    number of leading messages dropped, nothing reordered, repeated or
    changed. *)
Theorem filterHistory_suffix (H : list ChatMessage) (D : option (list string))
    (contextLength : option ContextLength) :
  filterHistory H D contextLength `suffix_of` H ∧
  ∃ k, filterHistory H D contextLength = drop k H.
Proof.
  destruct (filterHistory_drop H D contextLength) as [k Hk].
  split; [|eauto]. rewrite Hk. apply suffix_drop.
Qed.

Lemma filterHistory_after_divider H D cl :
  filterHistory H D cl `suffix_of` afterDivider H D.
Proof.
  destruct cl as [[N|]|]; [|done..].
  destruct (Z.ltb_spec 0 N) as [Hpos|Hnpos].
  - rewrite filterHistory_rounds by done.
    destruct (collectRounds_drop (afterDivider H D) N (length (afterDivider H D)) 0)
      as (k & _ & Hk); [lia|].
    rewrite drop_all in Hk. rewrite Hk. apply suffix_drop.
  - unfold afterDivider, filterHistory.
    destruct (Z.leb_spec 0 N); [|done].
    destruct (Z.eqb_spec N 0); [|lia]. apply suffix_nil.
Qed.

Lemma filterHistory_countUser H D N :
  0 ≤ N → countUser (filterHistory H D (Some (Rounds N))) ≤ N.
Proof.
  intros HN. destruct (Z.eq_dec N 0) as [->|Hne].
  - unfold filterHistory. simpl. done.
  - rewrite filterHistory_rounds by lia.
    pose proof (collectRounds_count (afterDivider H D) N
                  (length (afterDivider H D)) 0) as Hc.
    rewrite drop_all in Hc. apply Hc; [lia|done|lia].
Qed.

(** C2, as amended. For every history [H], divider list [D] and integer
    [N >= 0], the window holds at most [N] user messages, and when the last
    element of [D] is the id of a message of [H], the window lies strictly
    after the first position of that message. *)
Theorem filterHistory_window (H : list ChatMessage) (D : list string) (N : Z) :
  0 ≤ N →
  let W := filterHistory H (Some D) (Some (Rounds N)) in
  countUser W ≤ N ∧
  ∀ d p, last D = Some d → Stated.positionOf d H p → Stated.strictlyAfter p W H.
Proof.
  intros HN W. split; [by apply filterHistory_countUser|].
  intros d p Hlast [(m & Hm & Hid) Hfirst].
  assert (findIndex (λ msg, String.eqb (msg_id msg) d) H = Z.of_nat p) as Hidx.
  { apply (findIndex_first _ _ _ m); [done|by apply String.eqb_eq|].
    intros j y Hj Hy. apply String.eqb_neq. by apply (Hfirst j). }
  destruct (afterDivider_drop H (Some D)) as (k & Hk & Hkeq).
  specialize (Hkeq D d eq_refl Hlast). rewrite Hidx in Hkeq.
  specialize (Hkeq ltac:(lia)).
  destruct (filterHistory_after_divider H (Some D) (Some (Rounds N))) as [pre Hpre].
  fold W in Hpre. exists (take k H ++ pre). split.
  - rewrite <- (assoc_L (++)), <- Hpre, Hk. by rewrite take_drop.
  - rewrite length_app, length_take.
    assert (p < length H)%nat by (by eapply lookup_lt_Some). lia.
Qed.

Lemma filterHistory_window_witness :
  let H := [Scenario.hi; Scenario.hello; Scenario.message "m3" user "bye"] in
  let W := filterHistory H (Some ["m1"]) (Some (Rounds 2)) in
  countUser W ≤ 2 ∧
  ∀ d p, last ["m1"] = Some d → Stated.positionOf d H p → Stated.strictlyAfter p W H.
Proof.
  apply (filterHistory_window
           [Scenario.hi; Scenario.hello; Scenario.message "m3" user "bye"]
           ["m1"] 2).
  lia.
Defined.

(** C2 as worded fails: with dividers [m1; gone], where only [m1] occurs in
    the history, nothing is trimmed, and the window still holds the message
    [m1] itself. *)
Lemma window_property_fails :
  ¬ Stated.window_property [Scenario.hi; Scenario.hello] ["m1"; "gone"] 5.
Proof.
  intros [_ Hafter].
  destruct (Hafter "m1" 0%nat) as (pre & Hpre & Hlen).
  - reflexivity.
  - split; [exists Scenario.hi; done|]. intros j m' Hj. lia.
  - apply (f_equal length) in Hpre. rewrite length_app in Hpre.
    vm_compute filterHistory in Hpre. simpl in Hpre. lia.
Qed.
End WindowingFacts.

(** ** SSE line parsing *)

Section AdapterFacts.
Import JS.

Lemma try_catch_total {A} (body : Completion A) (d : A) :
  ∃ r, try_catch body (λ _, Normal d) = Normal r.
Proof. destruct body; simpl; eauto. Qed.

Lemma Anthropic_body_at_most_one (event : Value) evs :
  Anthropic.parseSSELine_body event = Normal evs → (length evs ≤ 1)%nat.
Proof.
  unfold Anthropic.parseSSELine_body.
  unfold mbind, mret, Completion_bind, Completion_ret.
  repeat case_match; intros [= <-]; simpl; lia.
Qed.

Lemma Anthropic_body_unrecognized (event : Value) evs :
  Anthropic.isDeltaFrame event = false →
  Anthropic.parseSSELine_body event = Normal evs → evs = [].
Proof.
  unfold Anthropic.parseSSELine_body, Anthropic.isDeltaFrame.
  unfold mbind, mret, Completion_bind, Completion_ret.
  destruct event; simpl; try congruence.
  intros ->. congruence.
Qed.

Lemma Anthropic_parseSSELine_cases JSON_parse jsonLine :
  Anthropic.parseSSELine JSON_parse jsonLine = Normal [] ∨
  ∃ event evs, JSON_parse jsonLine = Some event ∧
               Anthropic.parseSSELine_body event = Normal evs ∧
               Anthropic.parseSSELine JSON_parse jsonLine = Normal evs.
Proof.
  unfold Anthropic.parseSSELine. destruct (JSON_parse jsonLine) as [event|]; simpl.
  - unfold mbind, Completion_bind.
    destruct (Anthropic.parseSSELine_body event) as [evs|e] eqn:Hb; simpl;
      [right; eauto|by left].
  - by left.
Qed.

Lemma Google_for_parts_length items acc evs :
  Google.for_parts items acc = Normal evs →
  (length evs ≤ length acc + length items)%nat.
Proof.
  revert acc. induction items as [|part items IH]; intros acc; simpl.
  - intros [= <-]. lia.
  - unfold mbind, Completion_bind.
    destruct (Google.part_event part) as [[e|]|]; [| |done].
    + intros Hev. apply IH in Hev. rewrite length_app in Hev. simpl in Hev. lia.
    + intros Hev. apply IH in Hev. lia.
Qed.

Lemma Google_for_parts_chars (cs : list ascii) acc :
  Google.for_parts ((λ c, JStr (String c "")) <$> cs) acc = Normal acc.
Proof. revert acc. induction cs as [|c cs IH]; intros acc; simpl; [done|apply IH]. Qed.

Lemma Google_body_bound (parsed : Value) evs :
  Google.parseSSELine_body parsed = Normal evs →
  (length evs ≤ length (Google.frame_parts (Some parsed)))%nat.
Proof.
  unfold Google.parseSSELine_body, Google.frame_parts.
  unfold mbind, mret, Completion_bind, Completion_ret.
  destruct (getProp (Some parsed) "candidates") as [candidates|]; [|done].
  destruct (optIndex0 candidates) as [candidate|]; [|done].
  destruct (optProp candidate "content") as [content|]; [|done].
  destruct (optProp content "parts") as [[parts|]|]; [| |done].
  - destruct (truthy (Some parts)); [|intros [= <-]; simpl; lia].
    destruct parts; simpl; try done.
    + rewrite Google_for_parts_chars. intros [= <-]. simpl. lia.
    + intros Hev. by apply Google_for_parts_length in Hev.
  - intros [= <-]. simpl. lia.
Qed.

Lemma Google_parseSSELine_cases JSON_parse jsonLine :
  Google.parseSSELine JSON_parse jsonLine = Normal [] ∨
  ∃ parsed evs, JSON_parse jsonLine = Some parsed ∧
                Google.parseSSELine_body parsed = Normal evs ∧
                Google.parseSSELine JSON_parse jsonLine = Normal evs.
Proof.
  unfold Google.parseSSELine. destruct (JSON_parse jsonLine) as [parsed|]; simpl.
  - unfold mbind, Completion_bind.
    destruct (Google.parseSSELine_body parsed) as [evs|e] eqn:Hb; simpl;
      [right; eauto|by left].
  - by left.
Qed.

(** C6. Whatever [JSON.parse] does with the line (a value of any shape, or a
    [SyntaxError]), [parseSSELine] of the Anthropic and of the Google adapter
    completes normally; a line that is not JSON, and a frame of a shape the
    adapter does not recognize (JSON [null] among them), give the empty event
    list. *)
Theorem parseSSELine_never_throws (JSON_parse : string → option Value)
    (jsonLine : string) :
  (∃ evs, Anthropic.parseSSELine JSON_parse jsonLine = Normal evs) ∧
  (∃ evs, Google.parseSSELine JSON_parse jsonLine = Normal evs) ∧
  (JSON_parse jsonLine = None →
     Anthropic.parseSSELine JSON_parse jsonLine = Normal [] ∧
     Google.parseSSELine JSON_parse jsonLine = Normal []) ∧
  (∀ v, JSON_parse jsonLine = Some v → Anthropic.isDeltaFrame v = false →
     Anthropic.parseSSELine JSON_parse jsonLine = Normal []) ∧
  (∀ v, JSON_parse jsonLine = Some v → Google.frame_parts (Some v) = [] →
     Google.parseSSELine JSON_parse jsonLine = Normal []).
Proof.
  split; [apply try_catch_total|]. split; [apply try_catch_total|].
  split; [|split].
  - intros Hnone. unfold Anthropic.parseSSELine, Google.parseSSELine.
    by rewrite Hnone.
  - intros v Hv Hshape.
    destruct (Anthropic_parseSSELine_cases JSON_parse jsonLine)
      as [?|(event & evs & Hev & Hbody & ->)]; [done|].
    rewrite Hv in Hev. injection Hev as <-.
    by rewrite (Anthropic_body_unrecognized v evs).
  - intros v Hv Hshape.
    destruct (Google_parseSSELine_cases JSON_parse jsonLine)
      as [?|(parsed & evs & Hev & Hbody & ->)]; [done|].
    rewrite Hv in Hev. injection Hev as <-.
    apply Google_body_bound in Hbody. rewrite Hshape in Hbody.
    destruct evs; [done|simpl in Hbody; lia].
Qed.

Lemma parseSSELine_never_throws_witness :
  Anthropic.parseSSELine JSONText.parse "null" = Normal [] ∧
  Google.parseSSELine JSONText.parse "null" = Normal [] ∧
  Anthropic.parseSSELine JSONText.parse "event: ping" = Normal [] ∧
  Google.parseSSELine JSONText.parse "event: ping" = Normal [].
Proof.
  destruct (parseSSELine_never_throws JSONText.parse "null")
    as (_ & _ & _ & HA & HG).
  destruct (parseSSELine_never_throws JSONText.parse "event: ping")
    as (_ & _ & Hbad & _).
  split; [apply (HA JNull); reflexivity|].
  split; [apply (HG JNull); reflexivity|].
  apply Hbad. reflexivity.
Defined.

(** C7, as amended. For every line the Anthropic adapter returns at most
    one event and the Google adapter at most one event per part of the frame;
    a Gemini frame with a thought part and a text part gives two events, a
    reasoning event followed by a chunk event. *)
Theorem parseSSELine_event_counts :
  (∀ JSON_parse jsonLine,
     ∃ evs, Anthropic.parseSSELine JSON_parse jsonLine = Normal evs ∧
            (length evs ≤ 1)%nat) ∧
  (∀ JSON_parse jsonLine,
     ∃ evs, Google.parseSSELine JSON_parse jsonLine = Normal evs ∧
            (length evs ≤ length (Google.frame_parts (JSON_parse jsonLine)))%nat) ∧
  Google.parseSSELine JSONText.parse Scenario.frame_thought_and_text =
    Normal [StreamReasoningEvent (JStr "hm"); StreamChunkEvent (JStr "4")].
Proof.
  split; [|split].
  - intros JSON_parse jsonLine.
    destruct (Anthropic_parseSSELine_cases JSON_parse jsonLine)
      as [->|(event & evs & _ & Hbody & ->)].
    + exists []. split; [done|simpl; lia].
    + exists evs. split; [done|]. by eapply Anthropic_body_at_most_one.
  - intros JSON_parse jsonLine.
    destruct (Google_parseSSELine_cases JSON_parse jsonLine)
      as [->|(parsed & evs & Hp & Hbody & ->)].
    + exists []. split; [done|simpl; lia].
    + exists evs. split; [done|]. rewrite Hp. by apply Google_body_bound.
  - vm_compute. reflexivity.
Qed.

(** C7 as worded fails: a Gemini frame with three parts gives three events
    from one line. *)
Lemma Google_three_events_from_one_line :
  ¬ Stated.at_most_two_events Google.parseSSELine JSONText.parse
      Scenario.frame_three_parts.
Proof.
  intros (evs & Hev & Hlen). vm_compute in Hev. injection Hev as <-.
  simpl in Hlen. lia.
Qed.

End AdapterFacts.

(** ** The chat turn orchestrator and the conversation store *)

Section OrchestratorFacts.
Import JS Orchestrator.
Variable env : Env.

Lemma bind_run {A B} (m : M A) (f : A → M B) (s : State) :
  (m ≫= f) s =
  match m s with
  | (Normal a, s') => f a s'
  | (Abrupt e, s') => (Abrupt e, s')
  end.
Proof. reflexivity. Qed.

(** *** Rules for [pushes] *)

Lemma pushes_weaken {A} (m : M A) (P Q : Completion A → list IpcEvent → Prop) :
  pushes m P → (∀ r evs, P r evs → Q r evs) → pushes m Q.
Proof. intros Hm HPQ s. destruct (Hm s) as (evs & ? & ?). eauto. Qed.

Lemma pushes_ret {A} (a : A) (P : Completion A → list IpcEvent → Prop) :
  P (Normal a) [] → pushes (mret a) P.
Proof. intros HP s. exists []. simpl. by rewrite app_nil_r. Qed.

Lemma pushes_bind {A B} (m : M A) (f : A → M B)
    (Q : Completion A → list IpcEvent → Prop)
    (P : Completion B → list IpcEvent → Prop) :
  pushes m Q →
  (∀ a evs1, Q (Normal a) evs1 → pushes (f a) (λ r evs2, P r (evs1 ++ evs2))) →
  (∀ e evs1, Q (Abrupt e) evs1 → P (Abrupt e) evs1) →
  pushes (m ≫= f) P.
Proof.
  intros Hm Hf He s. rewrite bind_run.
  destruct (Hm s) as (evs1 & Hs1 & HQ).
  destruct (m s) as [[a|e] s1]; simpl in *.
  - destruct (Hf a evs1 HQ s1) as (evs2 & Hs2 & HP).
    exists (evs1 ++ evs2). rewrite Hs2, Hs1, (assoc_L (++)). done.
  - exists evs1. eauto.
Qed.

Lemma pushes_tryCatch {A} (body : M A) (handler : Thrown → M A)
    (Q P : Completion A → list IpcEvent → Prop) :
  pushes body Q →
  (∀ a evs, Q (Normal a) evs → P (Normal a) evs) →
  (∀ e evs1, Q (Abrupt e) evs1 →
     pushes (handler e) (λ r evs2, P r (evs1 ++ evs2))) →
  pushes (tryCatch body handler) P.
Proof.
  intros Hb Hn Hh s. unfold tryCatch.
  destruct (Hb s) as (evs1 & Hs1 & HQ).
  destruct (body s) as [[a|e] s1]; simpl in *.
  - exists evs1. eauto.
  - destruct (Hh e evs1 HQ s1) as (evs2 & Hs2 & HP).
    exists (evs1 ++ evs2). rewrite Hs2, Hs1, (assoc_L (++)). done.
Qed.

Lemma pushes_tryFinally {A} (body : M A) (cleanup : State → State)
    (P : Completion A → list IpcEvent → Prop) :
  pushes body P → (∀ s, sent (cleanup s) = sent s) →
  pushes (tryFinally body cleanup) P.
Proof.
  intros Hb Hc s. unfold tryFinally.
  destruct (Hb s) as (evs & Hs & HP).
  destruct (body s) as [r s1]; simpl in *. rewrite Hc. eauto.
Qed.

Lemma silent_intro {A} (m : M A) :
  (∀ s, sent (m s).2 = sent s) → silent m.
Proof. intros H s. exists []. by rewrite H, app_nil_r. Qed.

Lemma silent_randomUUID : silent (randomUUID env).
Proof. by apply silent_intro. Qed.

Lemma silent_Date_now : silent (Date_now env).
Proof. by apply silent_intro. Qed.

Lemma silent_writeFile effect failure :
  (∀ s, sent (effect s) = sent s) → silent (writeFile env effect failure).
Proof.
  intros He. apply silent_intro. intros s. unfold writeFile.
  destruct (write_fails_at env (writes_tried s)); simpl; [done|by rewrite He].
Qed.

Lemma silent_appendMessage id message : silent (appendMessage env id message).
Proof. by apply silent_writeFile. Qed.

Lemma silent_bind {A B} (m : M A) (f : A → M B) :
  silent m → (∀ a, silent (f a)) → silent (m ≫= f).
Proof.
  intros Hm Hf. eapply pushes_bind; [exact Hm| |done].
  intros a evs1 ->. apply Hf.
Qed.

Lemma silent_tryCatch {A} (body : M A) (handler : Thrown → M A) :
  silent body → (∀ e, silent (handler e)) → silent (tryCatch body handler).
Proof.
  intros Hb Hh. eapply pushes_tryCatch; [exact Hb|done|].
  intros e evs1 ->. apply Hh.
Qed.

Lemma silent_updateConversationMeta id updates :
  silent (updateConversationMeta env id updates).
Proof.
  apply silent_intro. intros s. unfold updateConversationMeta.
  destruct (_ =? -1); [done|].
  destruct (index s !! _) as [existing|]; [|done].
  match goal with |- sent ((?m s).2) = _ => assert (silent m) as Hm end.
  { apply silent_bind; [apply silent_Date_now|]. intros now.
    apply silent_bind; [by apply silent_writeFile|].
    intros _. by apply silent_intro. }
  destruct (Hm s) as (evs & -> & ->). by rewrite app_nil_r.
Qed.

Lemma silent_touch_meta conversationId : silent (touch_meta env conversationId).
Proof.
  apply silent_tryCatch.
  - apply silent_bind; [apply silent_updateConversationMeta|].
    intros _. by apply silent_intro.
  - intros _. by apply silent_intro.
Qed.

Lemma pushes_send ev :
  pushes (webContents_send ev) (λ r evs, r = Normal () ∧ evs = [ev]).
Proof. intros s. by exists [ev]. Qed.

Lemma pushes_await_stream conversationId todo acc :
  pushes (await_stream conversationId todo acc)
         (λ r evs, (∃ acc', r = Normal acc') ∧ relays_only evs).
Proof.
  revert acc. induction todo as [|[event|cid] rest IH]; intros acc; simpl.
  - apply pushes_ret. split; [eauto|constructor].
  - eapply pushes_bind with
      (Q := λ r evs, (∃ a, r = Normal a) ∧ relays_only evs).
    + destruct event; simpl.
      * eapply pushes_bind; [apply pushes_send| |by intros ?? []].
        intros [] ? [_ ->]. apply pushes_ret. split; [eauto|]. by repeat constructor.
      * eapply pushes_bind; [apply pushes_send| |by intros ?? []].
        intros [] ? [_ ->]. apply pushes_ret. split; [eauto|]. by repeat constructor.
      * apply pushes_ret. split; [eauto|constructor].
      * apply pushes_ret. split; [eauto|constructor].
    + intros a evs1 [_ Hr]. eapply pushes_weaken; [apply IH|].
      intros r evs [? ?]. split; [done|]. by apply Forall_app.
    + by intros e evs1 [[? ?] _].
  - eapply pushes_bind with (Q := λ r evs, r = Normal () ∧ evs = []).
    + intros s. exists []. rewrite app_nil_r. unfold stopGeneration.
      by destruct (activeControllers s !! cid).
    + intros [] ? [_ ->]. apply IH.
    + by intros ?? [? _].
Qed.

Lemma terminalCount_app evs1 evs2 :
  terminalCount (evs1 ++ evs2) =
  (terminalCount evs1 + terminalCount evs2)%nat.
Proof. unfold terminalCount. by rewrite filter_app, length_app. Qed.

Lemma terminalCount_relays evs : relays_only evs → terminalCount evs = 0%nat.
Proof.
  unfold terminalCount. induction 1 as [|ev evs Hev _ IH]; [done|].
  rewrite filter_cons. destruct (decide (isTerminal ev = true)); [congruence|done].
Qed.

Lemma pushes_after_silent {A B} (m : M A) (f : A → M B)
    (P : Completion B → list IpcEvent → Prop) :
  silent m → (∀ a, pushes (f a) P) → (∀ e, P (Abrupt e) []) →
  pushes (m ≫= f) P.
Proof.
  intros Hm Hf He. eapply pushes_bind; [exact Hm| |].
  - intros a evs1 ->. apply Hf.
  - intros e evs1 ->. apply He.
Qed.

Lemma silent_settle {A} (c : Completion A) : silent (settle c).
Proof. by apply silent_intro. Qed.

Lemma silent_signal_aborted controller : silent (signal_aborted controller).
Proof. by apply silent_intro. Qed.

Lemma pushes_send_terminal ev :
  isTerminal ev = true → pushes (webContents_send ev) one_if_normal.
Proof.
  intros Hev. eapply pushes_weaken; [apply pushes_send|].
  intros r evs [-> ->]. unfold one_if_normal, terminalCount.
  rewrite filter_cons. by destruct (decide (isTerminal ev = true)).
Qed.

(** Storing an assistant message, refreshing the index and announcing the
    completion: the shared tail of the success path and of the partial-stop
    path. *)
Lemma pushes_store_and_complete conversationId (msg : ChatMessage) ev :
  isTerminal ev = true →
  pushes (appendMessage env conversationId msg;;
          touch_meta env conversationId;;
          webContents_send ev)
         one_if_normal.
Proof.
  intros Hev.
  apply pushes_after_silent; [apply silent_appendMessage| |done].
  intros _. apply pushes_after_silent; [apply silent_touch_meta| |done].
  intros _. by apply pushes_send_terminal.
Qed.

Lemma pushes_sendMessage_try conversationId modelId run :
  pushes (sendMessage_try env conversationId modelId run) one_if_normal.
Proof.
  unfold sendMessage_try.
  apply pushes_after_silent; [apply silent_settle| |done]. intros result.
  apply pushes_after_silent; [apply silent_randomUUID| |done]. intros id.
  apply pushes_after_silent; [apply silent_Date_now| |done]. intros now.
  by apply pushes_store_and_complete.
Qed.

Lemma pushes_sendMessage_catch conversationId modelId controller acc1 acc2 error :
  pushes (sendMessage_catch env conversationId modelId controller acc1 acc2 error)
         one_if_normal.
Proof.
  unfold sendMessage_catch.
  apply pushes_after_silent; [apply silent_signal_aborted| |done].
  intros [|].
  - destruct (negb (String.eqb acc1 "")).
    + apply pushes_after_silent; [apply silent_randomUUID| |done]. intros id.
      apply pushes_after_silent; [apply silent_Date_now| |done]. intros now.
      by apply pushes_store_and_complete.
    + by apply pushes_send_terminal.
  - by apply pushes_send_terminal.
Qed.

Lemma pushes_sendMessage input run :
  pushes (sendMessage env input run) one_if_normal.
Proof.
  unfold sendMessage.
  destruct (List.find _ _) as [channel|]; [|by apply pushes_send_terminal].
  destruct (decryptApiKey env _) as [apiKey|]; [|by apply pushes_send_terminal].
  apply pushes_after_silent; [apply silent_randomUUID| |done]. intros id.
  apply pushes_after_silent; [apply silent_Date_now| |done]. intros now.
  apply pushes_after_silent; [apply silent_appendMessage| |done]. intros _.
  apply pushes_after_silent; [by apply silent_intro| |done]. intros fullHistory.
  apply pushes_after_silent; [by apply silent_intro| |done]. intros controller.
  apply pushes_after_silent; [by apply silent_intro| |done]. intros _.
  apply pushes_tryFinally; [|done].
  apply pushes_after_silent; [by apply silent_intro| |done]. intros _.
  eapply pushes_bind; [apply pushes_await_stream| |by intros ?? [[? ?] _]].
  intros acc relays [_ Hrelays].
  assert (∀ (r : Completion ()) evs, one_if_normal r evs → one_if_normal r (relays ++ evs))
    as Hshift.
  { intros r evs. unfold one_if_normal.
    by rewrite terminalCount_app, (terminalCount_relays relays). }
  eapply pushes_tryCatch with (Q := one_if_normal).
  - apply pushes_sendMessage_try.
  - intros a evs. apply Hshift.
  - intros e evs1 Hnone. eapply pushes_weaken; [apply pushes_sendMessage_catch|].
    intros r evs2 Hr. apply Hshift. unfold one_if_normal in *.
    rewrite terminalCount_app, Hnone. done.
Qed.

(** *** Normal completion on a disk that accepts every write *)

Section ReliableDisk.
Hypothesis disk_ok : ∀ n, write_fails_at env n = false.

Lemma completes_bind {A B} (m : M A) (f : A → M B) :
  completes m → (∀ a, completes (f a)) → completes (m ≫= f).
Proof.
  intros Hm Hf s. rewrite bind_run. destruct (Hm s) as [a Ha].
  destruct (m s) as [r s1]. simpl in Ha. subst r. apply Hf.
Qed.

Lemma completes_tryCatch {A} (body : M A) (handler : Thrown → M A) :
  (∀ e, completes (handler e)) → completes (tryCatch body handler).
Proof.
  intros Hh s. unfold tryCatch. destruct (body s) as [[a|e] s1]; simpl; [eauto|].
  apply Hh.
Qed.

Lemma completes_tryFinally {A} (body : M A) (cleanup : State → State) :
  completes body → completes (tryFinally body cleanup).
Proof.
  intros Hb s. unfold tryFinally. destruct (Hb s) as [a Ha].
  destruct (body s) as [r s1]. eauto.
Qed.

Lemma completes_total {A} (m : M A) :
  (∀ s, ∃ a s', m s = (Normal a, s')) → completes m.
Proof. intros H s. destruct (H s) as (a & s' & ->). eauto. Qed.

Lemma completes_appendMessage id message : completes (appendMessage env id message).
Proof.
  intros s. unfold appendMessage, writeFile. rewrite disk_ok. eauto.
Qed.

Lemma completes_touch_meta conversationId : completes (touch_meta env conversationId).
Proof. apply completes_tryCatch. intros _. apply completes_total. eauto. Qed.

Lemma completes_await_stream conversationId todo acc :
  completes (await_stream conversationId todo acc).
Proof.
  intros s. destruct (pushes_await_stream conversationId todo acc s)
    as (evs & _ & [acc' Hacc] & _). eauto.
Qed.

Lemma completes_store_and_complete conversationId (msg : ChatMessage) ev :
  completes (appendMessage env conversationId msg;;
             touch_meta env conversationId;;
             webContents_send ev).
Proof.
  apply completes_bind; [apply completes_appendMessage|]. intros _.
  apply completes_bind; [apply completes_touch_meta|]. intros _.
  apply completes_total. eauto.
Qed.

Lemma completes_sendMessage_catch conversationId modelId controller acc1 acc2 error :
  completes (sendMessage_catch env conversationId modelId controller acc1 acc2 error).
Proof.
  unfold sendMessage_catch.
  apply completes_bind; [apply completes_total; eauto|]. intros [|].
  - destruct (negb (String.eqb acc1 "")).
    + apply completes_bind; [apply completes_total; eauto|]. intros id.
      apply completes_bind; [apply completes_total; eauto|]. intros now.
      apply completes_store_and_complete.
    + apply completes_total. eauto.
  - apply completes_total. eauto.
Qed.

Lemma completes_sendMessage input run : completes (sendMessage env input run).
Proof.
  unfold sendMessage.
  destruct (List.find _ _) as [channel|]; [|apply completes_total; eauto].
  destruct (decryptApiKey env _) as [apiKey|]; [|apply completes_total; eauto].
  apply completes_bind; [apply completes_total; eauto|]. intros id.
  apply completes_bind; [apply completes_total; eauto|]. intros now.
  apply completes_bind; [apply completes_appendMessage|]. intros _.
  apply completes_bind; [apply completes_total; eauto|]. intros fullHistory.
  apply completes_bind; [apply completes_total; eauto|]. intros controller.
  apply completes_bind; [apply completes_total; eauto|]. intros _.
  apply completes_tryFinally.
  apply completes_bind; [apply completes_total; eauto|]. intros _.
  apply completes_bind; [apply completes_await_stream|]. intros acc.
  apply completes_tryCatch. intros e. apply completes_sendMessage_catch.
Qed.

End ReliableDisk.

(** C4, as amended. In every execution of [sendMessage] the pushes it adds
    contain exactly one terminal event when the call completes normally
    (configuration error, success, cancellation, failure caught by the
    [catch] block) and none when it throws; it throws only when a write to
    the store fails, which is the case of a failed append outside the [try]
    block. *)
Theorem sendMessage_terminal_events (input : ChatSendInput) (run : StreamRun)
    (s : State) :
  (∃ evs, sent (sendMessage env input run s).2 = sent s ++ evs ∧
          terminalCount evs =
          match (sendMessage env input run s).1 with
          | Normal _ => 1%nat
          | Abrupt _ => 0%nat
          end) ∧
  ((∀ n, write_fails_at env n = false) →
   (sendMessage env input run s).1 = Normal ()).
Proof.
  split; [apply pushes_sendMessage|].
  intros Hdisk. destruct (completes_sendMessage Hdisk input run s) as [[] Hn].
  exact Hn.
Qed.

Lemma string_app_assoc (a b c : string) : (a +:+ b) +:+ c = a +:+ (b +:+ c).
Proof.
  induction a as [|x a IH]; [done|].
  change (String x ((a +:+ b) +:+ c) = String x (a +:+ (b +:+ c))).
  by rewrite IH.
Qed.

Lemma string_app_nil_r (a : string) : a +:+ "" = a.
Proof.
  induction a as [|x a IH]; [done|].
  change (String x (a +:+ "") = String x a). by rewrite IH.
Qed.

Lemma stop_requested_cons_stop cid conversationId rest :
  stop_requested conversationId (StopRequested cid :: rest) =
  String.eqb cid conversationId || stop_requested conversationId rest.
Proof. reflexivity. Qed.

(** What the pending stream leaves behind: the accumulators, the relayed
    pushes, and the abort signals, which are only ever raised. *)
Lemma await_stream_spec conversationId todo acc s :
  ∃ sg ac,
    await_stream conversationId todo acc s =
      (Normal (acc.1 +:+ accumulated_content todo,
               acc.2 +:+ accumulated_reasoning todo),
       with_controllers sg ac
         (with_sent (sent s ++ relayed conversationId todo) s)) ∧
    length sg = length (signals s) ∧
    (∀ k, signals s !! k = Some true → sg !! k = Some true) ∧
    (∀ k, stop_requested conversationId todo = true →
          activeControllers s !! conversationId = Some k →
          (k < length (signals s))%nat → sg !! k = Some true).
Proof.
  revert acc s. induction todo as [|[event|cid] rest IH]; intros [a1 a2] s.
  - exists (signals s), (activeControllers s). simpl.
    rewrite !string_app_nil_r, app_nil_r. destruct s; done.
  - destruct event as [delta|delta|err|]; simpl.
    + rewrite bind_run. simpl.
      destruct (IH (a1 +:+ delta, a2) (with_sent (sent s ++ [STREAM_CHUNK conversationId delta]) s))
        as (sg & ac & -> & Hlen & Hkeep & Hstop).
      exists sg, ac. simpl in *. rewrite string_app_assoc, <- (assoc_L (++)). done.
    + rewrite bind_run. simpl.
      destruct (IH (a1, a2 +:+ delta) (with_sent (sent s ++ [STREAM_REASONING conversationId delta]) s))
        as (sg & ac & -> & Hlen & Hkeep & Hstop).
      exists sg, ac. simpl in *. rewrite string_app_assoc, <- (assoc_L (++)). done.
    + apply IH.
    + apply IH.
  - simpl. rewrite bind_run. unfold stopGeneration.
    destruct (activeControllers s !! cid) as [c|] eqn:Hc.
    + destruct (IH (a1, a2)
                  (with_controllers (<[c := true]> (signals s))
                     (delete cid (activeControllers s)) s))
        as (sg & ac & -> & Hlen & Hkeep & Hstop).
      exists sg, ac. simpl in *. split; [done|].
      split; [by rewrite Hlen, length_insert|]. split.
      * intros k Hk. apply Hkeep.
        destruct (decide (c = k)) as [->|Hne].
        -- rewrite list_lookup_insert_eq; [done|]. by eapply lookup_lt_Some.
        -- by rewrite list_lookup_insert_ne.
      * intros k Hreq Hk Hlt.
        change (String.eqb cid conversationId
                || stop_requested conversationId rest = true) in Hreq.
        destruct (String.eqb_spec cid conversationId) as [->|Hne].
        -- rewrite Hk in Hc. injection Hc as <-. apply Hkeep.
           by rewrite list_lookup_insert_eq.
        -- apply Hstop; [exact Hreq| |by rewrite length_insert].
           by rewrite lookup_delete_ne.
    + destruct (IH (a1, a2) s) as (sg & ac & -> & Hlen & Hkeep & Hstop).
      exists sg, ac. split; [done|]. split; [done|]. split; [done|].
      intros k Hreq Hk Hlt. apply Hstop; [|done..].
      change (String.eqb cid conversationId
              || stop_requested conversationId rest = true) in Hreq.
      destruct (String.eqb_spec cid conversationId) as [->|Hne];
        [congruence|exact Hreq].
Qed.

Lemma touch_meta_frame conversationId s :
  ∃ s', touch_meta env conversationId s = (Normal (), s') ∧
        logs s' = logs s ∧ sent s' = sent s.
Proof.
  unfold touch_meta, tryCatch, updateConversationMeta, Date_now, writeIndex,
    writeFile, throw, mbind, M_bind, mret, M_ret.
  destruct (_ =? -1); [eexists; split_and!; reflexivity|].
  destruct (index s !! _) as [existing|]; [|eexists; split_and!; reflexivity].
  simpl. destruct (write_fails_at env (writes_tried s));
    eexists; split_and!; reflexivity.
Qed.

Lemma appendMessage_ok id message s :
  write_fails_at env (writes_tried s) = false →
  appendMessage env id message s =
    (Normal (),
     with_logs (<[id := messages_of s id ++ [message]]> (logs s))
       (with_counters (uuids_drawn s) (clock_reads s) (S (writes_tried s)) s)).
Proof. intros Hok. unfold appendMessage, writeFile. by rewrite Hok. Qed.


Lemma sendMessage_try_rejected conversationId modelId run e s :
  settled run = Abrupt e →
  sendMessage_try env conversationId modelId run s = (Abrupt e, s).
Proof. intros Hrej. unfold sendMessage_try. rewrite bind_run. unfold settle. by rewrite Hrej. Qed.

Local Opaque appendMessage touch_meta.


Local Opaque await_stream sendMessage_try sendMessage_catch.


Local Transparent appendMessage touch_meta await_stream sendMessage_try
  sendMessage_catch.

(** C5. When the channel does not exist or its key cannot be decrypted,
    [sendMessage] completes normally, its only push is one error event, and
    the message logs and the index are as before: nothing is appended. *)
Theorem sendMessage_configuration_error (input : ChatSendInput)
    (run : StreamRun) (s : State) :
  List.find (λ c, String.eqb (chan_id c) (channelId input)) (listChannels env)
    = None ∨
  decryptApiKey env (channelId input) = None →
  let out := sendMessage env input run s in
  out.1 = Normal () ∧
  (∃ message,
     sent out.2 = sent s ++ [STREAM_ERROR (conversationId input) message]) ∧
  logs out.2 = logs s ∧ index out.2 = index s.
Proof.
  intros Hconfig. unfold sendMessage.
  destruct (List.find _ _) as [channel|].
  - destruct Hconfig as [?|Hkey]; [done|]. rewrite Hkey. simpl. eauto.
  - simpl. eauto.
Qed.

Lemma findIndex_lookup {A} (p : A → bool) (l : list A) (x : A) :
  0 ≤ Windowing.findIndex p l →
  l !! Z.to_nat (Windowing.findIndex p l) = Some x → p x = true.
Proof.
  induction l as [|a l IH]; simpl; [lia|].
  destruct (p a) eqn:Hpa; simpl.
  - by intros _ [= <-].
  - destruct (Z.ltb_spec (Windowing.findIndex p l) 0); [lia|].
    intros _. rewrite Z2Nat.inj_add, Nat.add_comm by lia. simpl. by apply IH.
Qed.

Lemma find_after_update {A} (p : A → bool) (l : list A) (y : A) :
  0 ≤ Windowing.findIndex p l → p y = true →
  List.find p (<[Z.to_nat (Windowing.findIndex p l) := y]> l) = Some y.
Proof.
  intros Hidx Hy. induction l as [|a l IH]; simpl in *; [lia|].
  destruct (p a) eqn:Hpa; simpl.
  - by rewrite Hy.
  - destruct (Z.ltb_spec (Windowing.findIndex p l) 0); [lia|].
    rewrite Z2Nat.inj_add, Nat.add_comm by lia. simpl. rewrite Hpa. by apply IH.
Qed.

(** C9, as amended. A successful [updateConversationMeta] sets [updatedAt] to
    the clock reading it takes, so [updatedAt] strictly increases whenever
    that reading exceeds the previous value; [appendMessage] and the rewrite
    of a message log leave the index, and with it [updatedAt], as they are. *)
Theorem updateConversationMeta_sets_updatedAt (id : string)
    (updates : MetaUpdates) (s s' : State) (m : ConversationMeta) :
  updateConversationMeta env id updates s = (Normal m, s') →
  updatedAt m = Date_now_at env (clock_reads s) ∧
  Stated.updatedAt_of s' id = Some (updatedAt m) ∧
  (∀ t, Stated.updatedAt_of s id = Some t → t < Date_now_at env (clock_reads s) →
        t < updatedAt m) ∧
  (∀ message, index (appendMessage env id message s).2 = index s) ∧
  (∀ messages, index (saveConversationMessages env id messages s).2 = index s).
Proof.
  intros Hrun.
  assert (∀ effect failure, (∀ st, index (effect st) = index st) →
            index (writeFile env effect failure s).2 = index s) as Hwrite.
  { intros effect failure Heff. unfold writeFile.
    destruct (write_fails_at env (writes_tried s)); simpl; [done|by rewrite Heff]. }
  unfold updateConversationMeta, Date_now, writeIndex, writeFile, throw,
    mbind, M_bind, mret, M_ret in Hrun.
  destruct (Z.eqb_spec (Windowing.findIndex (λ c, String.eqb (meta_id c) id) (index s)) (-1))
    as [|Hfound]; [done|].
  destruct (index s !! _) as [existing|] eqn:Hexisting; [|done].
  simpl in Hrun.
  destruct (write_fails_at env (writes_tried s)); [done|].
  injection Hrun as <- <-.
  pose proof (findIndex_bounds (λ c, String.eqb (meta_id c) id) (index s)).
  split; [done|]. split; [|split; [|split]].
  - unfold Stated.updatedAt_of. simpl.
    rewrite find_after_update; [done|lia|]. simpl.
    apply (findIndex_lookup _ _ existing) in Hexisting; [done|lia].
  - simpl. lia.
  - intros message. by apply Hwrite.
  - intros messages. by apply Hwrite.
Qed.
End OrchestratorFacts.

Section Concrete.
Import JS Orchestrator.


Lemma sendMessage_configuration_error_witness :
  let out := sendMessage Scenario.env_no_channel Scenario.send_2plus2
               Scenario.run_answer Scenario.state_c1 in
  out.1 = Normal () ∧
  (∃ message, sent out.2 = sent Scenario.state_c1 ++ [STREAM_ERROR "c1" message]) ∧
  logs out.2 = logs Scenario.state_c1 ∧ index out.2 = index Scenario.state_c1.
Proof.
  apply (sendMessage_configuration_error Scenario.env_no_channel
           Scenario.send_2plus2 Scenario.run_answer Scenario.state_c1).
  left. reflexivity.
Defined.

Lemma updateConversationMeta_sets_updatedAt_witness :
  let out := updateConversationMeta Scenario.env_ok "c1" noUpdates
               Scenario.state_c1 in
  Stated.updatedAt_of Scenario.state_c1 "c1" = Some 500 ∧
  Stated.updatedAt_of out.2 "c1" = Some 1000.
Proof.
  destruct (updateConversationMeta_sets_updatedAt Scenario.env_ok "c1" noUpdates
              Scenario.state_c1 _ _ eq_refl) as (Hnow & Hafter & _).
  split; [reflexivity|]. exact Hafter.
Defined.

Lemma sendMessage_terminal_events_witness :
  let out := sendMessage Scenario.env_ok Scenario.send_2plus2
               Scenario.run_answer Scenario.state_c1 in
  out.1 = Normal () ∧
  ∃ evs, sent out.2 = sent Scenario.state_c1 ++ evs ∧ terminalCount evs = 1%nat.
Proof.
  destruct (sendMessage_terminal_events Scenario.env_ok Scenario.send_2plus2
              Scenario.run_answer Scenario.state_c1)
    as [(evs & Hsent & Hcount) Hnormal].
  specialize (Hnormal (λ n, eq_refl)). split; [exact Hnormal|].
  exists evs. split; [exact Hsent|]. rewrite Hcount, Hnormal. reflexivity.
Defined.

(** C9 as worded fails: appending a message to the log of [c1] leaves its
    [updatedAt] at 500. *)
Lemma appendMessage_leaves_updatedAt :
  ¬ Stated.updatedAt_increases
      (appendMessage Scenario.env_ok "c1" (Scenario.message "m3" user "more"))
      Scenario.state_c1 "c1".
Proof.
  intros Hinc.
  destruct (Hinc ()
              (appendMessage Scenario.env_ok "c1"
                 (Scenario.message "m3" user "more") Scenario.state_c1).2 500)
    as (t' & Ht' & Hlt); [reflexivity..|].
  vm_compute in Ht'. injection Ht' as <-. lia.
Qed.

(** C4 as worded fails: when the disk refuses the append of the user
    message, [sendMessage] throws before anything is pushed. *)
Lemma no_terminal_event_when_append_fails :
  ¬ Stated.exactly_one_terminal Scenario.env_disk_full Scenario.send_2plus2
      Scenario.run_answer Scenario.state_c1.
Proof.
  intros (evs & Hsent & Hcount). vm_compute in Hsent. subst evs.
  discriminate Hcount.
Qed.


(** C1. What the code does in the scenario: the user message is appended
    before the history is read back, so with [contextLength = 1] the window
    handed to the adapter is the new message alone, and the Anthropic message
    list carries that message twice; the earlier round is not sent. *)
Theorem sendMessage_windows_new_message_only :
  let out := sendMessage Scenario.env_ok Scenario.send_2plus2
               Scenario.run_answer Scenario.state_c1 in
  let newMsg :=
    {| msg_id := "uuid-0"; role := user; content := "what's 2+2?";
       createdAt := 1000; model := None; reasoning := None;
       attachments := None; stopped := None |} in
  let sentAsUser :=
    {| Anthropic.a_role := Anthropic.role_user;
       Anthropic.a_content := Anthropic.PlainText "what's 2+2?" |} in
  history <$> requests out.2 = [[newMsg]] ∧
  Anthropic.toAnthropicMessages <$> requests out.2 = [[sentAsUser; sentAsUser]].
Proof. vm_compute. split; reflexivity. Qed.
End Concrete.


(** ** Title generation *)

Section TitleFacts.
Import JS Orchestrator Title.

Lemma dropWhile_app_all {A} (p : A → bool) (q l : list A) :
  Forall (λ c, p c = true) q → dropWhile p (q ++ l) = dropWhile p l.
Proof. induction 1 as [|c q Hc _ IH]; simpl; [done|by rewrite Hc]. Qed.

Lemma dropWhile_keep {A} (p : A → bool) (l : list A) :
  (∀ x, head l = Some x → p x = false) → dropWhile p l = l.
Proof. destruct l as [|x l]; simpl; [done|]. intros H. by rewrite (H x). Qed.

Lemma dropWhileEnd_app_all {A} (p : A → bool) (q l : list A) :
  Forall (λ c, p c = true) q → dropWhileEnd p (l ++ q) = dropWhileEnd p l.
Proof.
  intros Hq. unfold dropWhileEnd. rewrite reverse_app.
  rewrite dropWhile_app_all; [done|]. by apply Forall_reverse.
Qed.

Lemma dropWhileEnd_keep {A} (p : A → bool) (l : list A) :
  (∀ x, last l = Some x → p x = false) → dropWhileEnd p l = l.
Proof.
  intros H. unfold dropWhileEnd.
  rewrite dropWhile_keep; [apply reverse_involutive|].
  intros x. rewrite head_reverse. apply H.
Qed.

Lemma isQuote_not_space c : isQuote c = true → isWhiteSpace c = false.
Proof.
  unfold isQuote. intros [H|H]%orb_true_iff; apply Z.eqb_eq in H; by subst c.
Qed.

Lemma cleanEnds_inv body :
  cleanEnds body = true →
  ∃ x y, head body = Some x ∧ last body = Some y ∧
         isQuote x = false ∧ isWhiteSpace x = false ∧
         isQuote y = false ∧ isWhiteSpace y = false.
Proof.
  unfold cleanEnds. destruct (head body) as [x|], (last body) as [y|]; try done.
  intros [[Hqx Hwx]%negb_true_iff%orb_false_iff
          [Hqy Hwy]%negb_true_iff%orb_false_iff]%andb_true_iff.
  exists x, y. done.
Qed.

(** Quotes around a text with clean ends are all that the cleaning removes. *)
Lemma clean_quoted q1 body q2 :
  Forall (λ c, isQuote c = true) q1 → Forall (λ c, isQuote c = true) q2 →
  cleanEnds body = true →
  trim (stripQuotes (trim (q1 ++ body ++ q2))) = body.
Proof.
  intros Hq1 Hq2 (x & y & Hhead & Hlast & Hqx & Hwx & Hqy & Hwy)%cleanEnds_inv.
  assert (trim body = body) as Hbody.
  { unfold trim. rewrite dropWhile_keep by (intros ?; rewrite Hhead; congruence).
    apply dropWhileEnd_keep. intros ?. rewrite Hlast. congruence. }
  assert (trim (q1 ++ body ++ q2) = q1 ++ body ++ q2) as ->.
  { unfold trim. rewrite dropWhile_keep.
    - apply dropWhileEnd_keep. intros z.
      rewrite (assoc_L (++)), last_app.
      destruct (last q2) as [z'|] eqn:Hz.
      + intros [= <-]. apply isQuote_not_space.
        apply last_Some_elem_of in Hz.
        by apply (proj1 (Forall_forall _ _) Hq2).
      + rewrite last_app, Hlast. congruence.
    - intros z. destruct Hq1 as [|c q1 Hc Hq1]; simpl.
      + destruct body; simpl in *; [done|]. congruence.
      + intros [= <-]. by apply isQuote_not_space. }
  unfold stripQuotes. rewrite dropWhile_app_all by done.
  rewrite dropWhile_keep.
  2:{ intros z. destruct body; simpl in *; [done|]. congruence. }
  rewrite dropWhileEnd_app_all by done.
  rewrite dropWhileEnd_keep by (intros ?; rewrite Hlast; congruence).
  exact Hbody.
Qed.

Lemma take_nonempty (n : nat) (l : JsString) :
  l ≠ [] → (0 < n)%nat → orNull (take n l) = Some (take n l).
Proof. destruct l, n; simpl; try done; lia. Qed.

(** C8. [generateTitle] always completes normally; it returns [null] when
    the channel is missing, the key cannot be decrypted, the request throws
    or no title comes back; a title it returns is the fetched text, trimmed,
    stripped of the quotes around it and cut to [MAX_TITLE_LENGTH] code
    units; in particular quotes around a text with clean ends are removed. *)
Theorem generateTitle_best_effort (env : Env) (input : GenerateTitleInput)
    (fetched : Completion (option JsString)) :
  let find_channel :=
    List.find (λ c, String.eqb (chan_id c) (t_channelId input))
              (listChannels env) in
  let result := generateTitle env input fetched in
  (∃ r, result = Normal r) ∧
  (find_channel = None → result = Normal None) ∧
  (decryptApiKey env (t_channelId input) = None → result = Normal None) ∧
  (∀ e, fetched = Abrupt e → result = Normal None) ∧
  (fetched = Normal None → result = Normal None) ∧
  (∀ t, result = Normal (Some t) →
     (length t ≤ MAX_TITLE_LENGTH)%nat ∧
     ∃ title, fetched = Normal (Some title) ∧
              t = take MAX_TITLE_LENGTH (trim (stripQuotes (trim title)))) ∧
  (∀ q1 body q2,
     is_Some find_channel →
     is_Some (decryptApiKey env (t_channelId input)) →
     Forall (λ c, isQuote c = true) q1 → Forall (λ c, isQuote c = true) q2 →
     cleanEnds body = true →
     fetched = Normal (Some (q1 ++ body ++ q2)) →
     result = Normal (Some (take MAX_TITLE_LENGTH body))).
Proof.
  intros find_channel result. subst result find_channel. unfold generateTitle.
  destruct (List.find _ _) as [channel|];
    [|split_and!; eauto; try done; by intros ??? []].
  destruct (decryptApiKey env _) as [apiKey|];
    [|split_and!; eauto; try done; by intros ??? _ []].
  split; [apply try_catch_total|].
  split; [done|]. split; [done|].
  split; [by intros e ->|]. split; [by intros ->|]. split.
  - intros t. destruct fetched as [[[|c title]|]|e]; simpl; try done.
    intros [= Ht]. split.
    + destruct (take _ _) eqn:Htake in Ht; [done|]. injection Ht as <-.
      rewrite <- Htake. rewrite length_take. lia.
    + exists (c :: title). split; [done|].
      destruct (take _ _) eqn:Htake in Ht; [done|]. injection Ht as <-.
      by rewrite <- Htake.
  - intros q1 body q2 _ _ Hq1 Hq2 Hbody ->. simpl.
    pose proof (cleanEnds_inv _ Hbody) as (x & y & Hhead & _).
    destruct (q1 ++ body ++ q2) as [|c title] eqn:Htitle.
    { destruct q1, body; simpl in *; done. }
    rewrite <- Htitle, clean_quoted by done.
    rewrite take_nonempty; [done| |unfold MAX_TITLE_LENGTH; lia].
    by destruct body.
Qed.

Lemma generateTitle_my_trip_plan :
  generateTitle Scenario.env_ok
    {| t_userMessage := "plan a trip"; t_channelId := "ch"; t_modelId := "claude" |}
    (Normal (Some (units (JSONText.dq "'My Trip Plan'")))) =
  Normal (Some (units "My Trip Plan")).
Proof.
  pose proof (generateTitle_best_effort Scenario.env_ok
    {| t_userMessage := "plan a trip"; t_channelId := "ch"; t_modelId := "claude" |}
    (Normal (Some (units (JSONText.dq "'My Trip Plan'")))))
    as (_ & _ & _ & _ & _ & _ & Hclean).
  apply (Hclean [34] (units "My Trip Plan") [34]).
  - by eexists.
  - by eexists.
  - by repeat constructor.
  - by repeat constructor.
  - reflexivity.
  - reflexivity.
Defined.
End TitleFacts.

(** ** More on the history window, the conversation store, the turn and
    the adapters *)

Section WindowFacts.
Import Windowing.

Lemma findIndex_none {A} (p : A → bool) (l : list A) :
  Forall (λ x, p x = false) l → findIndex p l = -1.
Proof.
  induction 1 as [|x l Hx _ IH]; simpl; [done|]. rewrite Hx, IH. done.
Qed.

Lemma suffix_drop_le {A} (l : list A) (i k : nat) :
  (k ≤ i)%nat → drop i l `suffix_of` drop k l.
Proof.
  intros Hk. replace i with (k + (i - k))%nat by lia.
  rewrite <- drop_drop. apply suffix_drop.
Qed.

Lemma countUser_nonneg l : 0 ≤ countUser l.
Proof. unfold countUser. lia. Qed.

Lemma countUser_app l1 l2 : countUser (l1 ++ l2) = countUser l1 + countUser l2.
Proof. unfold countUser. rewrite filter_app, length_app. lia. Qed.

Lemma countUser_suffix l1 l2 : l1 `suffix_of` l2 → countUser l1 ≤ countUser l2.
Proof.
  intros [k ->]. rewrite countUser_app. pose proof (countUser_nonneg k). lia.
Qed.

(** The loop never stops before it has taken the message it is looking at. *)
Lemma collectRounds_drop_lt filtered N i rc :
  (S i ≤ length filtered)%nat →
  ∃ k, (k ≤ i)%nat ∧
       collectRounds filtered N (S i) rc (drop (S i) filtered) = drop k filtered.
Proof.
  intros Hn. simpl.
  destruct (lookup_lt_is_Some_2 filtered i) as [msg Hmsg]; [lia|].
  rewrite Hmsg, <- (drop_S _ _ _ Hmsg).
  destruct (isUser msg).
  - destruct (rc + 1 >=? N).
    + exists i. done.
    + destruct (collectRounds_drop filtered N i (rc + 1)) as (k & ? & ->); [lia|].
      eauto.
  - destruct (collectRounds_drop filtered N i rc) as (k & ? & ->); [lia|]. eauto.
Qed.

Lemma collectRounds_mono filtered N n rc :
  (n ≤ length filtered)%nat →
  collectRounds filtered N n rc (drop n filtered) `suffix_of`
  collectRounds filtered (N + 1) n rc (drop n filtered).
Proof.
  revert rc. induction n as [|i IH]; intros rc Hn; simpl; [done|].
  destruct (lookup_lt_is_Some_2 filtered i) as [msg Hmsg]; [lia|].
  rewrite Hmsg, <- (drop_S _ _ _ Hmsg).
  destruct (isUser msg); [|apply IH; lia].
  destruct (Z.geb_spec (rc + 1) N), (Z.geb_spec (rc + 1) (N + 1)); try lia.
  - done.
  - destruct (collectRounds_drop filtered (N + 1) i (rc + 1)) as (k & ? & ->); [lia|].
    by apply suffix_drop_le.
  - apply IH. lia.
Qed.

(** X1. The window grows with the round count: for [N >= 0] the window of
    [N] rounds is a suffix of the window of [N + 1] rounds. *)
Theorem filterHistory_monotone (H : list ChatMessage) (D : option (list string))
    (N : Z) :
  0 ≤ N →
  filterHistory H D (Some (Rounds N)) `suffix_of`
  filterHistory H D (Some (Rounds (N + 1))).
Proof.
  intros HN. destruct (Z.eq_dec N 0) as [->|Hne].
  - unfold filterHistory at 1. simpl. apply suffix_nil.
  - rewrite !filterHistory_rounds by lia.
    pose proof (collectRounds_mono (afterDivider H D) N
                  (length (afterDivider H D)) 0) as Hm.
    rewrite drop_all in Hm. apply Hm. lia.
Qed.

Lemma filterHistory_monotone_witness :
  let bye := Scenario.message "m3" user "bye" in
  let H := [Scenario.hi; Scenario.hello; bye] in
  filterHistory H None (Some (Rounds 1)) `suffix_of`
    filterHistory H None (Some (Rounds (1 + 1))) ∧
  filterHistory H None (Some (Rounds 1)) = [bye] ∧
  filterHistory H None (Some (Rounds (1 + 1))) = H.
Proof.
  split; [|split; reflexivity].
  apply (filterHistory_monotone
           [Scenario.hi; Scenario.hello; Scenario.message "m3" user "bye"]
           None 1).
  lia.
Defined.

(** The loop, characterized: all of the history when it has fewer than [N]
    user messages, else the part that starts at the [N]-th user message from
    the end. *)
Lemma collectRounds_exact filtered N n rc :
  (n ≤ length filtered)%nat →
  rc = countUser (drop n filtered) → rc < N →
  let R := collectRounds filtered N n rc (drop n filtered) in
  (countUser filtered < N → R = filtered) ∧
  (N ≤ countUser filtered →
     countUser R = N ∧ ∃ m rest, R = m :: rest ∧ isUser m = true).
Proof.
  revert rc. induction n as [|i IH]; intros rc Hn Hrc Hlt; simpl.
  - rewrite drop_0 in *. split; [done|]. intros ?. exfalso. lia.
  - destruct (lookup_lt_is_Some_2 filtered i) as [msg Hmsg]; [lia|].
    rewrite Hmsg, <- (drop_S _ _ _ Hmsg).
    pose proof (countUser_cons msg (drop (S i) filtered)) as Hc.
    rewrite <- (drop_S _ _ _ Hmsg) in Hc.
    destruct (isUser msg) eqn:Hu.
    + destruct (Z.geb_spec (rc + 1) N).
      * pose proof (countUser_suffix _ _ (suffix_drop filtered i)).
        split; [lia|]. intros _. split; [lia|].
        rewrite (drop_S _ _ _ Hmsg). eauto.
      * apply IH; lia.
    + apply IH; lia.
Qed.

(** The whole loop, entered as [filterHistory] enters it. *)
Lemma collectRounds_all_exact filtered N :
  0 < N →
  let R := collectRounds filtered N (length filtered) 0 [] in
  (countUser filtered < N → R = filtered) ∧
  (N ≤ countUser filtered →
     countUser R = N ∧ ∃ m rest, R = m :: rest ∧ isUser m = true).
Proof.
  intros HN.
  pose proof (collectRounds_exact filtered N (length filtered) 0) as Hx.
  rewrite drop_all in Hx. apply Hx; [lia|done|lia].
Qed.

(** X2. For a positive round count [N], the window is the whole history
    after the divider when that has fewer than [N] user messages; otherwise
    it holds exactly [N] user messages and starts with one of them. *)
Theorem filterHistory_exact (H : list ChatMessage) (D : option (list string))
    (N : Z) :
  0 < N →
  let F := filterHistory H D None in
  let W := filterHistory H D (Some (Rounds N)) in
  (countUser F < N → W = F) ∧
  (N ≤ countUser F →
     countUser W = N ∧ ∃ m rest, W = m :: rest ∧ isUser m = true).
Proof.
  intros HN F W. subst W F. rewrite filterHistory_rounds by done.
  apply collectRounds_all_exact, HN.
Qed.

Lemma filterHistory_exact_witness :
  let H := [Scenario.hi; Scenario.hello; Scenario.message "m3" user "bye"] in
  let F := filterHistory H None None in
  let W := filterHistory H None (Some (Rounds 1)) in
  (countUser F < 1 → W = F) ∧
  (1 ≤ countUser F →
     countUser W = 1 ∧ ∃ m rest, W = m :: rest ∧ isUser m = true).
Proof.
  apply (filterHistory_exact
           [Scenario.hi; Scenario.hello; Scenario.message "m3" user "bye"] None 1).
  lia.
Defined.

Lemma filterHistory_cases H D cl :
  filterHistory H D cl = afterDivider H D ∨
  (∃ N, cl = Some (Rounds N) ∧ N = 0 ∧ filterHistory H D cl = []) ∨
  (∃ N, cl = Some (Rounds N) ∧ 0 < N ∧
        filterHistory H D cl =
        collectRounds (afterDivider H D) N (length (afterDivider H D)) 0 []).
Proof.
  destruct cl as [[N|]|]; [|by left..].
  destruct (Z.ltb_spec 0 N).
  - right. right. exists N. by rewrite filterHistory_rounds.
  - unfold afterDivider, filterHistory.
    destruct (Z.leb_spec 0 N); [|by left].
    destruct (Z.eqb_spec N 0); [|lia]. right. left. eauto.
Qed.

Lemma filterHistory_drop_lt H D cl :
  cl ≠ Some (Rounds 0) → afterDivider H D ≠ [] →
  ∃ k, (k < length H)%nat ∧ filterHistory H D cl = drop k H.
Proof.
  intros Hcl Hne.
  destruct (afterDivider_drop H D) as (k1 & Hk1 & _).
  assert (k1 < length H)%nat as Hk1lt.
  { destruct (decide (k1 < length H)%nat); [done|].
    rewrite Hk1, drop_ge in Hne by lia. done. }
  destruct (filterHistory_cases H D cl) as [->|[(N & -> & -> & _)|(N & -> & HN & ->)]].
  - exists k1. done.
  - done.
  - destruct (length (afterDivider H D)) as [|i] eqn:Hlen.
    { by destruct (afterDivider H D). }
    destruct (collectRounds_drop_lt (afterDivider H D) N i 0) as (k & Hk & Hrun);
      [lia|].
    rewrite <- Hlen, drop_all in Hrun. rewrite Hlen in Hrun. rewrite Hrun.
    rewrite Hk1, length_drop in Hlen. rewrite Hk1, drop_drop.
    exists (k1 + k)%nat. split; [lia|done].
Qed.

Lemma last_drop_lt {A} (l : list A) (k : nat) :
  (k < length l)%nat → last (drop k l) = last l.
Proof.
  intros Hk. rewrite !last_lookup, length_drop, lookup_drop. f_equal. lia.
Qed.

(** X3. Unless the round count is 0, a window whose history is not cut to
    nothing by the divider ends with the last message of the history. *)
Theorem filterHistory_keeps_last (H : list ChatMessage)
    (D : option (list string)) (cl : option ContextLength) :
  cl ≠ Some (Rounds 0) → filterHistory H D None ≠ [] →
  last (filterHistory H D cl) = last H ∧ filterHistory H D cl ≠ [].
Proof.
  intros Hcl Hne.
  destruct (filterHistory_drop_lt H D cl Hcl Hne) as (k & Hk & ->).
  split; [by apply last_drop_lt|].
  intros Hnil. apply (f_equal length) in Hnil.
  rewrite length_drop in Hnil. simpl in Hnil. lia.
Qed.

Lemma filterHistory_keeps_last_witness :
  last (filterHistory [Scenario.hi; Scenario.hello] None (Some (Rounds 1)))
    = last [Scenario.hi; Scenario.hello] ∧
  filterHistory [Scenario.hi; Scenario.hello] None (Some (Rounds 1)) ≠ [].
Proof. apply filterHistory_keeps_last; done. Defined.

(** X4. Without dividers, windowing a window again with the same round
    count returns it unchanged. *)
Theorem filterHistory_idempotent (H : list ChatMessage)
    (cl : option ContextLength) :
  filterHistory (filterHistory H None cl) None cl = filterHistory H None cl.
Proof.
  destruct cl as [[N|]|]; [|done..].
  destruct (Z.ltb_spec 0 N) as [HN|HN].
  - assert (∀ X, filterHistory X None (Some (Rounds N)) =
                 collectRounds X N (length X) 0 []) as Hrounds.
    { intros X. by rewrite filterHistory_rounds. }
    destruct (collectRounds_all_exact H N HN) as [Hfew Hmany].
    rewrite <- Hrounds in Hfew, Hmany.
    set (W := filterHistory H None (Some (Rounds N))) in *.
    destruct (collectRounds_all_exact W N HN) as [Hfew' Hmany'].
    rewrite <- Hrounds in Hfew', Hmany'.
    destruct (Z.lt_ge_cases (countUser W) N) as [Hlt|Hge]; [by apply Hfew'|].
    destruct (Hmany' ltac:(lia)) as (Hcount & _).
    destruct (filterHistory_drop W None (Some (Rounds N))) as [k Hk].
    destruct k as [|k]; [exact Hk|].
    assert (N ≤ countUser H) as HH.
    { destruct (filterHistory_drop H None (Some (Rounds N))) as [k0 Hk0].
      fold W in Hk0. pose proof (countUser_suffix _ _ (suffix_drop H k0)) as Hle.
      rewrite <- Hk0 in Hle. lia. }
    destruct (Hmany HH) as (HcW & m & rest & HW & Hum).
    rewrite Hk, HW in Hcount. simpl in Hcount.
    pose proof (countUser_suffix _ _ (suffix_drop rest k)).
    rewrite HW, countUser_cons, Hum in HcW. lia.
  - unfold filterHistory. simpl.
    destruct (Z.leb_spec 0 N); [|done].
    destruct (Z.eqb_spec N 0); [done|lia].
Qed.

(** X5. When the last divider is not the id of any message of the history,
    the dividers are ignored altogether: the window is that of the same
    history without dividers, whatever the earlier dividers are. *)
Theorem filterHistory_dangling_divider (H : list ChatMessage)
    (D : list string) (d : string) (cl : option ContextLength) :
  last D = Some d → Forall (λ m, msg_id m ≠ d) H →
  filterHistory H (Some D) cl = filterHistory H None cl.
Proof.
  intros Hlast Habsent. unfold filterHistory. rewrite Hlast.
  rewrite findIndex_none; [done|].
  eapply Forall_impl; [exact Habsent|]. intros m Hm. by apply String.eqb_neq.
Qed.

Lemma filterHistory_dangling_divider_witness :
  filterHistory [Scenario.hi; Scenario.hello] (Some ["m1"; "gone"]) None =
  filterHistory [Scenario.hi; Scenario.hello] None None.
Proof.
  apply (filterHistory_dangling_divider _ _ "gone"); [reflexivity|].
  repeat constructor; done.
Defined.


Lemma includes_false xs x :
  ChatView.includes xs x = false → Forall (λ id, String.eqb id x = false) xs.
Proof.
  unfold ChatView.includes. induction xs as [|y xs IH]; simpl; [constructor|].
  intros [Hy Hxs]%orb_false_iff. constructor; [|by apply IH].
  by rewrite String.eqb_sym.
Qed.

Lemma without_absent xs x :
  Forall (λ id, String.eqb id x = false) xs → ChatView.without xs x = xs.
Proof.
  unfold ChatView.without. induction 1 as [|y xs Hy _ IH]; [done|].
  rewrite filter_cons. destruct (decide _); [by rewrite IH|done].
Qed.

(** X6. [handleClearContext] followed by [filterHistory]: when the message
    ids are distinct and the last message is not yet a divider, the divider
    list that the handler computes leaves an empty window for that history. *)
Theorem clearContext_empties_window (H : list ChatMessage) (D : list string)
    (m : ChatMessage) (cl : option ContextLength) :
  NoDup (msg_id <$> H) → last H = Some m →
  ChatView.includes D (msg_id m) = false →
  filterHistory H (Some (ChatView.handleClearContext H D)) cl = [].
Proof.
  intros Hnodup Hlast Hnew.
  assert (afterDivider H (Some (ChatView.handleClearContext H D)) = []) as Hcut.
  { unfold afterDivider, filterHistory, ChatView.handleClearContext.
    rewrite Hlast, Hnew, last_snoc.
    rewrite last_lookup in Hlast.
    rewrite (findIndex_first _ H (pred (length H)) m); [| done | apply String.eqb_refl |].
    - destruct (Z.leb_spec 0 (Z.of_nat (pred (length H)))); [|lia].
      unfold slice_from. apply drop_ge.
      assert (pred (length H) < length H)%nat by (by eapply lookup_lt_Some). lia.
    - intros j y Hj Hy. apply String.eqb_neq. intros Heq.
      assert (j = pred (length H)); [|lia].
      apply (NoDup_lookup _ _ _ (msg_id m) Hnodup);
        rewrite list_lookup_fmap; [by rewrite Hy; simpl; rewrite Heq|by rewrite Hlast]. }
  destruct (filterHistory_after_divider H (Some (ChatView.handleClearContext H D)) cl)
    as [pre Hpre].
  rewrite Hcut in Hpre. symmetry in Hpre. by apply app_eq_nil in Hpre as [_ ?].
Qed.

Lemma clearContext_empties_window_witness :
  filterHistory [Scenario.hi; Scenario.hello]
    (Some (ChatView.handleClearContext [Scenario.hi; Scenario.hello] ["m1"]))
    (Some infinite) = [].
Proof.
  apply (clearContext_empties_window _ _ Scenario.hello); [|reflexivity..].
  simpl. apply NoDup_cons. split; [|apply NoDup_singleton].
  intros Hin. apply list_elem_of_singleton in Hin. discriminate Hin.
Defined.

Lemma includes_snoc xs x : ChatView.includes (xs ++ [x]) x = true.
Proof.
  unfold ChatView.includes. rewrite existsb_app. simpl.
  by rewrite String.eqb_refl, orb_true_r.
Qed.

(** X7. [handleClearContext] is a toggle: applied twice to the same
    messages, starting from a divider list that does not hold the id of the
    last message, it gives back the divider list it started from. *)
Theorem clearContext_twice (currentMessages : list ChatMessage)
    (D : list string) :
  (∀ m, last currentMessages = Some m → ChatView.includes D (msg_id m) = false) →
  ChatView.handleClearContext currentMessages
    (ChatView.handleClearContext currentMessages D) = D.
Proof.
  intros Hnew. unfold ChatView.handleClearContext.
  destruct (last currentMessages) as [m|]; [|done].
  pose proof (Hnew m eq_refl) as Hm. rewrite Hm, includes_snoc.
  unfold ChatView.without. rewrite filter_app.
  fold (ChatView.without D (msg_id m)).
  rewrite without_absent by (by apply includes_false).
  rewrite filter_cons, String.eqb_refl.
  destruct (decide _) as [Hd|_]; [discriminate Hd|]. by rewrite filter_nil, app_nil_r.
Qed.

Lemma clearContext_twice_witness :
  ChatView.handleClearContext [Scenario.hi; Scenario.hello]
    (ChatView.handleClearContext [Scenario.hi; Scenario.hello] ["m1"]) = ["m1"].
Proof.
  apply clearContext_twice. intros m Hm. simpl in Hm. injection Hm as <-.
  reflexivity.
Defined.

End WindowFacts.

Section LogStoreFacts.
Import JS Orchestrator Store.
Variable env : Env.

Lemma filter_length_eq {A} (P : A → Prop) `{∀ x, Decision (P x)} (l : list A) :
  length (filter P l) = length l → filter P l = l.
Proof.
  induction l as [|x l IH]; [done|]. rewrite filter_cons.
  destruct (decide (P x)); simpl.
  - intros [= Hl]. by rewrite IH.
  - intros Hl. pose proof (length_filter P l). lia.
Qed.

(** X9. [deleteMessage]: when no message has the id, the log is returned
    and nothing is written; when it returns, the log it leaves is the list it
    returns, a sublist of the old log that holds exactly the messages with
    another id; when the write fails the logs are as before. *)
Theorem deleteMessage_removes (conversationId messageId : string) (s : State) :
  let messages := messages_of s conversationId in
  let out := deleteMessage env conversationId messageId s in
  (Forall (λ m, msg_id m ≠ messageId) messages → out = (Normal messages, s)) ∧
  (∀ remaining, out.1 = Normal remaining →
     messages_of out.2 conversationId = remaining ∧
     remaining `sublist_of` messages ∧
     (∀ m, m ∈ remaining ↔ m ∈ messages ∧ msg_id m ≠ messageId)) ∧
  (∀ e, out.1 = Abrupt e → logs out.2 = logs s).
Proof.
  intros messages out. subst out. unfold deleteMessage.
  rewrite bind_run. simpl. fold messages.
  set (filtered := filter (λ msg, String.eqb (msg_id msg) messageId = false) messages).
  assert (∀ m, m ∈ filtered ↔ m ∈ messages ∧ msg_id m ≠ messageId) as Hmem.
  { intros m. unfold filtered. rewrite list_elem_of_filter, String.eqb_neq. tauto. }
  destruct (Nat.eqb_spec (length filtered) (length messages)) as [Hsame|Hless].
  - apply filter_length_eq in Hsame. fold filtered in Hsame. simpl.
    rewrite Hsame in Hmem.
    split; [done|]. split; [|done].
    intros remaining [= <-]. split; [done|]. split; [done|exact Hmem].
  - split.
    { intros Hnone. exfalso. apply Hless. unfold filtered. f_equal.
      clear -Hnone. induction Hnone as [|m l Hm _ IH]; [done|].
      rewrite filter_cons. destruct (decide _) as [|Hd]; [by rewrite IH|].
      by apply String.eqb_neq in Hm. }
    rewrite bind_run. unfold saveConversationMessages, writeFile, messages_of.
    destruct (write_fails_at env (writes_tried s)); simpl.
    + split; [done|]. done.
    + split; [|done]. intros remaining [= <-]. rewrite lookup_insert_eq. simpl.
      split; [done|]. split; [apply sublist_filter|exact Hmem].
Qed.

Lemma findIndex_take {A} (p : A → bool) (l : list A) :
  0 ≤ Windowing.findIndex p l →
  Forall (λ x, p x = false) (take (Z.to_nat (Windowing.findIndex p l)) l).
Proof.
  induction l as [|a l IH]; simpl; [lia|].
  destruct (p a) eqn:Hpa; simpl; [constructor|].
  destruct (Z.ltb_spec (Windowing.findIndex p l) 0); [lia|].
  intros _. rewrite Z2Nat.inj_add, Nat.add_comm by lia. simpl.
  constructor; [done|]. apply IH. lia.
Qed.

Lemma findIndex_absent {A} (p : A → bool) (l : list A) :
  Windowing.findIndex p l = -1 → Forall (λ x, p x = false) l.
Proof.
  induction l as [|a l IH]; simpl; [constructor|].
  destruct (p a) eqn:Hpa; [lia|].
  destruct (Z.ltb_spec (Windowing.findIndex p l) 0) as [Hneg|]; [|lia].
  intros _. constructor; [done|]. apply IH.
  pose proof (findIndex_bounds p l). lia.
Qed.

Lemma findIndex_present {A} (p : A → bool) (l : list A) :
  Windowing.findIndex p l ≠ -1 →
  ∃ x, l !! Z.to_nat (Windowing.findIndex p l) = Some x ∧ p x = true ∧
       0 ≤ Windowing.findIndex p l.
Proof.
  intros Hidx. pose proof (findIndex_bounds p l).
  destruct (lookup_lt_is_Some_2 l (Z.to_nat (Windowing.findIndex p l)))
    as [x Hx]; [lia|].
  exists x. split; [done|]. split; [|lia].
  apply (findIndex_lookup p l x); [lia|done].
Qed.

(** X10. [truncateMessagesFrom]: when no message has the id, the log is
    returned and nothing is written; otherwise the log is cut just before
    the first message with the id, so what is kept holds no message with the
    id; when the write fails the logs are as before. *)
Theorem truncateMessagesFrom_prefix (conversationId messageId : string)
    (s : State) :
  let messages := messages_of s conversationId in
  let out := truncateMessagesFrom env conversationId messageId s in
  (Forall (λ m, msg_id m ≠ messageId) messages → out = (Normal messages, s)) ∧
  (∀ kept, out.1 = Normal kept →
     messages_of out.2 conversationId = kept ∧
     Forall (λ m, msg_id m ≠ messageId) kept ∧
     (kept = messages ∨
      ∃ m rest, messages = kept ++ m :: rest ∧ msg_id m = messageId)) ∧
  (∀ e, out.1 = Abrupt e → logs out.2 = logs s).
Proof.
  intros messages out. subst out. unfold truncateMessagesFrom.
  rewrite bind_run. simpl. fold messages.
  set (p := λ msg, String.eqb (msg_id msg) messageId).
  destruct (Z.eqb_spec (Windowing.findIndex p messages) (-1)) as [Hnone|Hsome].
  - apply findIndex_absent in Hnone.
    assert (Forall (λ m, msg_id m ≠ messageId) messages) as Habs.
    { eapply Forall_impl; [exact Hnone|]. intros m. apply String.eqb_neq. }
    simpl. split; [done|]. split; [|done].
    intros kept [= <-]. split; [done|]. split; [done|by left].
  - destruct (findIndex_present p messages Hsome) as (m & Hm & Hpm & Hge).
    split.
    { intros Habs. exfalso.
      apply (proj1 (Forall_forall _ _) Habs m); [by eapply list_elem_of_lookup_2|].
      by apply String.eqb_eq. }
    rewrite bind_run. unfold saveConversationMessages, writeFile, messages_of.
    destruct (write_fails_at env (writes_tried s)); simpl; [done|].
    split; [|done]. intros kept [= <-]. rewrite lookup_insert_eq. simpl.
    split; [done|]. split.
    + eapply Forall_impl; [apply (findIndex_take p messages Hge)|].
      intros x. apply String.eqb_neq.
    + right. exists m, (drop (S (Z.to_nat (Windowing.findIndex p messages))) messages).
      split; [|by apply String.eqb_eq].
      unfold slice_to. rewrite <- (drop_S _ _ _ Hm). by rewrite take_drop.
Qed.

(** How [updateConversationMeta] runs. *)
Lemma updateConversationMeta_cases (id : string) (updates : MetaUpdates)
    (s : State) :
  let p := λ c, String.eqb (meta_id c) id in
  let idx := Windowing.findIndex p (index s) in
  let out := updateConversationMeta env id updates s in
  (idx = -1 ∧ out = (Abrupt (Err ("对话不存在: " +:+ id)), s)) ∨
  (∃ existing,
     0 ≤ idx ∧ index s !! Z.to_nat idx = Some existing ∧ meta_id existing = id ∧
     logs out.2 = logs s ∧ sent out.2 = sent s ∧
     signals out.2 = signals s ∧ activeControllers out.2 = activeControllers s ∧
     requests out.2 = requests s ∧
     let m := merge_meta existing updates (Date_now_at env (clock_reads s)) in
     if write_fails_at env (writes_tried s)
     then out.1 = Abrupt (Err "写入对话索引失败") ∧ index out.2 = index s
     else out.1 = Normal m ∧ index out.2 = <[Z.to_nat idx := m]> (index s)).
Proof.
  intros p idx out. subst out. unfold updateConversationMeta. fold p. fold idx.
  destruct (Z.eqb_spec idx (-1)) as [Hnone|Hsome]; [by left|].
  right. destruct (findIndex_present p (index s) Hsome) as (existing & Hex & Hp & Hge).
  fold idx in Hex, Hge. rewrite Hex. exists existing.
  apply String.eqb_eq in Hp.
  unfold Date_now, writeIndex, writeFile, mbind, M_bind, mret, M_ret. simpl.
  destruct (write_fails_at env (writes_tried s)); simpl; done.
Qed.

(** X11. [updateConversationMeta] rewrites one entry of the index: it
    throws without writing when no conversation has the id; when it returns,
    the first entry with the id is replaced by the returned one, which keeps
    the id, and the other entries, the order, the ids and the creation times
    are as before; a failure leaves the index as it was; the message logs
    are never touched. *)
Theorem updateConversationMeta_touches_one (id : string) (updates : MetaUpdates)
    (s : State) :
  let out := updateConversationMeta env id updates s in
  (Forall (λ c, meta_id c ≠ id) (index s) →
     out = (Abrupt (Err ("对话不存在: " +:+ id)), s)) ∧
  (∀ e, out.1 = Abrupt e → index out.2 = index s) ∧
  (∀ m, out.1 = Normal m →
     meta_id m = id ∧
     meta_id <$> index out.2 = meta_id <$> index s ∧
     meta_createdAt <$> index out.2 = meta_createdAt <$> index s ∧
     ∃ before old after,
       index s = before ++ old :: after ∧
       index out.2 = before ++ m :: after ∧
       Forall (λ c, meta_id c ≠ id) before ∧ meta_id old = id) ∧
  logs out.2 = logs s.
Proof.
  intros out.
  destruct (updateConversationMeta_cases id updates s)
    as [[Hidx Hout]|(existing & Hge & Hex & Hid & Hlogs & _ & _ & _ & _ & Hrun)];
    fold out in Hout || fold out in Hlogs, Hrun.
  - rewrite Hout. simpl. split; [done|]. split; [done|]. split; [done|done].
  - set (p := λ c, String.eqb (meta_id c) id) in *.
    set (idx := Windowing.findIndex p (index s)) in *.
    split.
    { intros Habs. exfalso.
      apply (proj1 (Forall_forall _ _) Habs existing); [|done].
      by eapply list_elem_of_lookup_2. }
    split; [|split; [|done]].
    + intros e He. destruct (write_fails_at env (writes_tried s));
        destruct Hrun as [Hr Hi]; [done|congruence].
    + intros m Hm. destruct (write_fails_at env (writes_tried s));
        destruct Hrun as [Hr Hi]; [congruence|].
      rewrite Hr in Hm. injection Hm as <-. rewrite Hi.
      split; [done|].
      rewrite !list_fmap_insert. simpl.
      split; [apply list_insert_id; by rewrite list_lookup_fmap, Hex; simpl; rewrite Hid|].
      split; [apply list_insert_id; by rewrite list_lookup_fmap, Hex|].
      exists (take (Z.to_nat idx) (index s)), existing,
             (drop (S (Z.to_nat idx)) (index s)).
      split; [by rewrite <- (drop_S _ _ _ Hex), take_drop|].
      split.
      * rewrite insert_take_drop by (by eapply lookup_lt_Some). done.
      * split; [|done]. eapply Forall_impl; [apply (findIndex_take p (index s) Hge)|].
        intros c. apply String.eqb_neq.
Qed.
End LogStoreFacts.

Section IndexFacts.
Import JS Orchestrator Store.
Variable env : Env.

Lemma find_findIndex {A} (p : A → bool) (l : list A) :
  List.find p l =
  if Windowing.findIndex p l =? -1 then None
  else l !! Z.to_nat (Windowing.findIndex p l).
Proof.
  induction l as [|a l IH]; simpl; [done|].
  destruct (p a); simpl; [done|]. rewrite IH.
  pose proof (findIndex_bounds p l).
  destruct (Z.ltb_spec (Windowing.findIndex p l) 0).
  - destruct (Z.eqb_spec (Windowing.findIndex p l) (-1)); [done|lia].
  - destruct (Z.eqb_spec (Windowing.findIndex p l) (-1)); [lia|].
    destruct (Z.eqb_spec (Windowing.findIndex p l + 1) (-1)); [lia|].
    rewrite Z2Nat.inj_add, Nat.add_comm by lia. done.
Qed.

(** X12. [updateContextDividers], when it returns: the entry found under
    the id afterwards is the returned one, it carries the new dividers, and
    its title, model, channel, creation time, context length and pin are
    those of the entry found before. *)
Theorem updateContextDividers_read_back (conversationId : string)
    (dividers : list string) (s : State) (m : ConversationMeta) :
  let p := λ c, String.eqb (meta_id c) conversationId in
  let out := updateContextDividers env conversationId dividers s in
  out.1 = Normal m →
  List.find p (index out.2) = Some m ∧
  contextDividers m = Some dividers ∧
  ∃ old, List.find p (index s) = Some old ∧
         title m = title old ∧ meta_modelId m = meta_modelId old ∧
         meta_channelId m = meta_channelId old ∧
         meta_createdAt m = meta_createdAt old ∧
         contextLength m = contextLength old ∧ pinned m = pinned old.
Proof.
  intros p out Hm. subst out. unfold updateContextDividers in *.
  destruct (updateConversationMeta_cases env conversationId
              {| upd_title := None; upd_modelId := None; upd_channelId := None;
                 upd_contextDividers := Some dividers; upd_contextLength := None;
                 upd_pinned := None |} s)
    as [[_ Hout]|(existing & Hge & Hex & Hid & _ & _ & _ & _ & _ & Hrun)].
  - rewrite Hout in Hm. done.
  - fold p in Hge, Hex, Hrun.
    destruct (write_fails_at env (writes_tried s)); destruct Hrun as [Hr Hi];
      [congruence|].
    rewrite Hr in Hm. injection Hm as <-. rewrite Hi.
    split; [|split; [done|]].
    + apply find_after_update; [done|]. unfold p. simpl. by apply String.eqb_eq.
    + exists existing. split; [|done].
      rewrite find_findIndex.
      destruct (Z.eqb_spec (Windowing.findIndex p (index s)) (-1)); [lia|done].
Qed.

(** *** listConversations *)

Lemma insert_by_updatedAt_perm a l : insert_by_updatedAt a l ≡ₚ a :: l.
Proof.
  induction l as [|b l IH]; simpl; [done|].
  destruct (_ <=? 0); [done|]. rewrite IH. apply Permutation_swap.
Qed.

Lemma insert_by_updatedAt_sorted a l :
  StronglySorted newer_first l → StronglySorted newer_first (insert_by_updatedAt a l).
Proof.
  induction 1 as [|b l Hl IH Hb]; simpl; [repeat constructor|].
  destruct (Z.leb_spec (updatedAt b - updatedAt a) 0).
  - constructor; [by constructor|]. constructor; [unfold newer_first; lia|].
    eapply Forall_impl; [exact Hb|]. unfold newer_first. intros c. lia.
  - constructor; [exact IH|].
    rewrite insert_by_updatedAt_perm. constructor; [unfold newer_first; lia|done].
Qed.

Lemma insert_by_updatedAt_stable a l t :
  filter (λ c, updatedAt c = t) (insert_by_updatedAt a l) =
  filter (λ c, updatedAt c = t) (a :: l).
Proof.
  induction l as [|b l IH]; simpl; [done|].
  destruct (Z.leb_spec (updatedAt b - updatedAt a) 0); [done|].
  rewrite (filter_cons _ b), IH, !filter_cons.
  destruct (decide (updatedAt b = t)), (decide (updatedAt a = t)); try done. lia.
Qed.

Lemma sort_by_updatedAt_perm l : sort_by_updatedAt l ≡ₚ l.
Proof.
  unfold sort_by_updatedAt. induction l as [|a l IH]; simpl; [done|].
  by rewrite insert_by_updatedAt_perm, IH.
Qed.

(** X13. [listConversations] returns a permutation of the index, newest
    update first, with conversations of equal [updatedAt] in the order of the
    index, and leaves the state alone. *)
Theorem listConversations_sorted (s : State) :
  ∃ listed,
    listConversations s = (Normal listed, s) ∧
    listed ≡ₚ index s ∧
    StronglySorted newer_first listed ∧
    ∀ t, filter (λ c, updatedAt c = t) listed =
         filter (λ c, updatedAt c = t) (index s).
Proof.
  exists (sort_by_updatedAt (index s)). split; [done|].
  unfold sort_by_updatedAt. induction (index s) as [|a l (IHp & IHs & IHt)]; simpl.
  - split; [done|]. split; [constructor|done].
  - split; [by rewrite insert_by_updatedAt_perm, IHp|].
    split; [by apply insert_by_updatedAt_sorted|].
    intros t. rewrite insert_by_updatedAt_stable, !filter_cons, IHt. done.
Qed.
End IndexFacts.

Section IndexWitnesses.
Import JS Orchestrator Store.

Lemma updateContextDividers_read_back_witness :
  let out := updateContextDividers Scenario.env_ok "c1" ["m2"] Scenario.state_c1 in
  ∃ m, out.1 = Normal m ∧
       List.find (λ c, String.eqb (meta_id c) "c1") (index out.2) = Some m ∧
       contextDividers m = Some ["m2"].
Proof.
  eexists. split; [reflexivity|].
  destruct (updateContextDividers_read_back Scenario.env_ok "c1" ["m2"]
              Scenario.state_c1 _ eq_refl) as (Hfind & Hdiv & _).
  split; [exact Hfind|exact Hdiv].
Defined.

End IndexWitnesses.

Section ConversationFacts.
Import JS Orchestrator Store.
Variable env : Env.

Lemma find_snoc {A} (p : A → bool) (l : list A) (x : A) :
  List.find p (l ++ [x]) =
  match List.find p l with
  | Some y => Some y
  | None => if p x then Some x else None
  end.
Proof. induction l as [|a l IH]; simpl; [done|]. by destruct (p a). Qed.

Lemma find_none_Forall (l : list ConversationMeta) (id : string) :
  List.find (λ c, String.eqb (meta_id c) id) l = None ↔
  Forall (λ c, meta_id c ≠ id) l.
Proof.
  induction l as [|a l IH]; simpl; [by split; [constructor|]|].
  destruct (String.eqb_spec (meta_id a) id) as [Ha|Ha].
  - split; [done|]. by intros [? _]%Forall_cons.
  - rewrite IH. split; [by constructor|]. by intros [_ ?]%Forall_cons.
Qed.

(** X14. [createConversation], when it returns: the new entry, whose id is
    the one just drawn, is appended at the end of the index, its creation
    and update times are equal, and its title is never empty and is the
    given one when that is not empty. The id is not checked against the
    index: the new entry is the one found under its id when no older entry
    has that id, and otherwise the older entry is still the one found. A
    failure leaves the index as it was; the message logs are never
    touched. *)
Theorem createConversation_appends (title modelId channelId : option string)
    (s : State) :
  let out := createConversation env title modelId channelId s in
  (∀ meta, out.1 = Normal meta →
     let p := λ c, String.eqb (meta_id c) (meta_id meta) in
     meta_id meta = randomUUID_at env (uuids_drawn s) ∧
     index out.2 = index s ++ [meta] ∧
     meta_createdAt meta = updatedAt meta ∧
     Orchestrator.title meta ≠ "" ∧
     (∀ t, title = Some t → t ≠ "" → Orchestrator.title meta = t) ∧
     (Forall (λ c, meta_id c ≠ meta_id meta) (index s) →
        List.find p (index out.2) = Some meta) ∧
     (∀ old, List.find p (index s) = Some old →
        List.find p (index out.2) = Some old)) ∧
  (∀ e, out.1 = Abrupt e → index out.2 = index s) ∧
  logs out.2 = logs s.
Proof.
  intros out. subst out. unfold createConversation.
  unfold Date_now, randomUUID, writeIndex, writeFile, mbind, M_bind, mret, M_ret.
  simpl. destruct (write_fails_at env (writes_tried s)); simpl.
  - split; [done|]. split; done.
  - split; [|split; done]. intros meta [= <-]. simpl.
    split; [done|]. split; [done|]. split; [done|]. split; [|split; [|split]].
    + destruct title as [t|]; [|done].
      destruct (String.eqb_spec t ""); [done|done].
    + intros t -> Ht. by destruct (String.eqb_spec t "").
    + intros Hfresh. apply find_none_Forall in Hfresh.
      rewrite find_snoc, Hfresh. simpl. by rewrite String.eqb_refl.
    + intros old Hold. by rewrite find_snoc, Hold.
Qed.

(** X15. [deleteConversation] throws without writing when no conversation
    has the id; when it returns, the first entry with the id is gone from
    the index and the rest is as before, and the log of the conversation is
    gone too if its removal did not fail (a failed removal is swallowed); a
    failure leaves index and logs as they were; the logs of the other
    conversations are never touched. *)
Theorem deleteConversation_removes (id : string) (s : State) :
  let out := deleteConversation env id s in
  (Forall (λ c, meta_id c ≠ id) (index s) →
     out = (Abrupt (Err ("对话不存在: " +:+ id)), s)) ∧
  (∀ e, out.1 = Abrupt e → index out.2 = index s ∧ logs out.2 = logs s) ∧
  (out.1 = Normal () →
     (∃ before old after,
        index s = before ++ old :: after ∧ index out.2 = before ++ after ∧
        Forall (λ c, meta_id c ≠ id) before ∧ meta_id old = id) ∧
     (write_fails_at env (S (writes_tried s)) = false →
        logs out.2 = delete id (logs s))) ∧
  (∀ other, other ≠ id → logs out.2 !! other = logs s !! other).
Proof.
  intros out. subst out. unfold deleteConversation.
  set (p := λ c, String.eqb (meta_id c) id).
  destruct (Z.eqb_spec (Windowing.findIndex p (index s)) (-1)) as [Hnone|Hsome].
  - simpl. split; [done|]. split; [done|]. split; [done|done].
  - destruct (findIndex_present p (index s) Hsome) as (old & Hold & Hp & Hge).
    apply String.eqb_eq in Hp.
    split.
    { intros Habs. exfalso.
      apply (proj1 (Forall_forall _ _) Habs old); [|done].
      by eapply list_elem_of_lookup_2. }
    unfold writeIndex, removeLog, tryCatch, writeFile, mbind, M_bind, mret, M_ret.
    simpl. destruct (write_fails_at env (writes_tried s)); simpl.
    { split; [done|]. split; [done|done]. }
    assert (∃ before old after,
              index s = before ++ old :: after ∧
              delete (Z.to_nat (Windowing.findIndex p (index s))) (index s)
                = before ++ after ∧
              Forall (λ c, meta_id c ≠ id) before ∧ meta_id old = id) as Hsplit.
    { exists (take (Z.to_nat (Windowing.findIndex p (index s))) (index s)), old,
             (drop (S (Z.to_nat (Windowing.findIndex p (index s)))) (index s)).
      split; [by rewrite <- (drop_S _ _ _ Hold), take_drop|].
      split; [by rewrite delete_take_drop|]. split; [|done].
      eapply Forall_impl; [apply (findIndex_take p (index s) Hge)|].
      intros c. apply String.eqb_neq. }
    destruct (logs s !! id) as [lines|] eqn:Hlog; simpl.
    + destruct (write_fails_at env (S (writes_tried s))); simpl.
      * split; [done|]. split; [done|done].
      * split; [done|]. split; [done|].
        intros other Hne. by rewrite lookup_delete_ne.
    + split; [done|]. split; [|done]. intros _. split; [done|].
      intros _. by rewrite delete_id.
Qed.

Lemma slice_spec {A} (start : Z) (l : list A) :
  slice start l `suffix_of` l.
Proof. apply suffix_drop. Qed.

(** X16. [getRecentMessages] returns a suffix of the log and the length of
    the log, and changes nothing; for a positive limit it returns
    [min limit total] messages and [hasMore] tells whether the log is longer
    than the limit; for a limit that is not positive and a log that is not
    empty it reports [hasMore] and returns the log without its first
    [-limit] messages, the whole log when the limit is 0. *)
Theorem getRecentMessages_tail (id : string) (limit : Z) (s : State) :
  ∃ r, getRecentMessages id limit s = (Normal r, s) ∧
       messages r `suffix_of` messages_of s id ∧
       total r = Z.of_nat (length (messages_of s id)) ∧
       (0 < limit →
          Z.of_nat (length (messages r)) = Z.min limit (total r) ∧
          hasMore r = (limit <? total r)) ∧
       (limit ≤ 0 → 0 < total r →
          hasMore r = true ∧
          messages r = drop (Z.to_nat (- limit)) (messages_of s id)).
Proof.
  unfold getRecentMessages, messages_of.
  destruct (logs s !! id) as [lines|]; simpl.
  - destruct (Z.leb_spec (Z.of_nat (length lines)) limit); eexists;
      (split; [reflexivity|]); simpl.
    + split; [done|]. split; [done|]. split.
      * intros _. split; [lia|]. destruct (Z.ltb_spec limit (Z.of_nat (length lines))); [lia|done].
      * lia.
    + split; [apply slice_spec|]. split; [done|]. unfold slice. split.
      * intros Hpos. destruct (Z.ltb_spec (- limit) 0); [|lia].
        rewrite length_drop. split; [lia|].
        destruct (Z.ltb_spec limit (Z.of_nat (length lines))); [done|lia].
      * intros Hle _. split; [done|].
        destruct (Z.ltb_spec (- limit) 0); [lia|].
        destruct (Z.le_ge_cases (- limit) (Z.of_nat (length lines))).
        -- by rewrite Z.min_l.
        -- rewrite Z.min_r by lia. rewrite !drop_ge; [done|lia..].
  - eexists. split; [reflexivity|]. simpl. split; [done|]. split; [done|].
    split; [|lia]. intros Hpos. split; [lia|].
    by destruct (Z.ltb_spec limit 0); [lia|].
Qed.
End ConversationFacts.

Section PinFacts.
Import JS Orchestrator Store.
Variable env : Env.

Lemma find_unique (l : list ConversationMeta) (x : ConversationMeta) (id : string) :
  NoDup (meta_id <$> l) → x ∈ l → meta_id x = id →
  List.find (λ c, String.eqb (meta_id c) id) l = Some x.
Proof.
  intros Hnd Hin Hid. induction l as [|a l IH]; [by apply elem_of_nil in Hin|].
  simpl in *. apply NoDup_cons in Hnd as [Ha Hnd].
  destruct (String.eqb_spec (meta_id a) id) as [Haid|Haid].
  - apply elem_of_cons in Hin as [->|Hin]; [done|].
    exfalso. apply Ha. rewrite Haid, <- Hid. by apply list_elem_of_fmap_2.
  - apply elem_of_cons in Hin as [->|Hin]; [done|]. by apply IH.
Qed.

Lemma find_sorted (s : State) (id : string) :
  NoDup (meta_id <$> index s) →
  List.find (λ c, String.eqb (meta_id c) id) (sort_by_updatedAt (index s)) =
  List.find (λ c, String.eqb (meta_id c) id) (index s).
Proof.
  intros Hnd. pose proof (sort_by_updatedAt_perm (index s)) as Hperm.
  destruct (List.find _ (index s)) as [x|] eqn:Hfind.
  - apply find_some in Hfind as [Hin Hx]. apply String.eqb_eq in Hx.
    apply find_unique; [by rewrite Hperm| |done].
    rewrite Hperm. by apply list_elem_of_In.
  - apply find_none_Forall. rewrite Hperm. by apply find_none_Forall.
Qed.

(** X17. The [TOGGLE_PIN] handler, on an index with distinct ids: it throws
    without writing when no conversation has the id; when it returns, the
    entry found under the id is the returned one, its pin is the negation of
    the old pin (a conversation never pinned becomes pinned), title and
    dividers are kept, and the ids stay distinct. *)
Theorem togglePin_flips (id : string) (s : State) :
  NoDup (meta_id <$> index s) →
  let p := λ c, String.eqb (meta_id c) id in
  let out := togglePin env id s in
  (Forall (λ c, meta_id c ≠ id) (index s) →
     out = (Abrupt (Err ("对话不存在: " +:+ id)), s)) ∧
  (∀ m, out.1 = Normal m →
     List.find p (index out.2) = Some m ∧
     NoDup (meta_id <$> index out.2) ∧
     ∃ old, List.find p (index s) = Some old ∧
            pinned m = Some (negb (default false (pinned old))) ∧
            title m = title old ∧
            contextDividers m = contextDividers old).
Proof.
  intros Hnd p out. subst out. unfold togglePin.
  rewrite bind_run. simpl. rewrite (find_sorted s id Hnd). fold p.
  destruct (List.find p (index s)) as [current|] eqn:Hfind.
  - split.
    { intros Habs. apply find_none_Forall in Habs. unfold p in Hfind. congruence. }
    intros m Hm.
    match type of Hm with
    | (updateConversationMeta env id ?u s).1 = _ =>
        destruct (updateConversationMeta_cases env id u s)
          as [[_ Hout]|(existing & Hge & Hex & Hid & _ & _ & _ & _ & _ & Hrun)];
        [rewrite Hout in Hm; done|]
    end.
    fold p in Hge, Hex, Hrun.
    assert (existing = current) as ->.
    { rewrite find_findIndex in Hfind.
      destruct (Z.eqb_spec (Windowing.findIndex p (index s)) (-1)); [lia|congruence]. }
    destruct (write_fails_at env (writes_tried s)); destruct Hrun as [Hr Hi];
      [congruence|].
    rewrite Hr in Hm. injection Hm as <-.
    split; [|split].
    + rewrite Hi. apply find_after_update; [done|]. unfold p. simpl.
      by apply String.eqb_eq.
    + rewrite Hi, list_fmap_insert. simpl. rewrite list_insert_id; [done|].
      by rewrite list_lookup_fmap, Hex.
    + exists current. done.
  - simpl. split; [done|done].
Qed.
End PinFacts.

Section PinWitnesses.
Import JS Orchestrator Store.

Lemma togglePin_flips_witness :
  let out := togglePin Scenario.env_ok "c1" Scenario.state_c1 in
  ∃ m, out.1 = Normal m ∧ pinned m = Some true.
Proof.
  eexists. split; [reflexivity|].
  destruct (togglePin_flips Scenario.env_ok "c1" Scenario.state_c1) as [_ Hflip].
  - simpl. apply NoDup_singleton.
  - destruct (Hflip _ eq_refl) as (_ & _ & old & Hold & Hpin & _).
    injection Hold as <-. exact Hpin.
Defined.
End PinWitnesses.

Section StoreWitnesses.
Import JS Orchestrator Store.

Lemma deleteMessage_removes_witness :
  let out := deleteMessage Scenario.env_ok "c1" "m1" Scenario.state_c1 in
  out.1 = Normal [Scenario.hello] ∧
  messages_of out.2 "c1" = [Scenario.hello] ∧
  [Scenario.hello] `sublist_of` messages_of Scenario.state_c1 "c1".
Proof.
  split; [reflexivity|].
  destruct (deleteMessage_removes Scenario.env_ok "c1" "m1" Scenario.state_c1)
    as (_ & Hreturned & _).
  destruct (Hreturned [Scenario.hello] eq_refl) as (Hlog & Hsub & _).
  split; [exact Hlog|exact Hsub].
Defined.

Lemma truncateMessagesFrom_prefix_witness :
  let out := truncateMessagesFrom Scenario.env_ok "c1" "m2" Scenario.state_c1 in
  out.1 = Normal [Scenario.hi] ∧
  messages_of out.2 "c1" = [Scenario.hi] ∧
  Forall (λ m, msg_id m ≠ "m2") [Scenario.hi].
Proof.
  split; [reflexivity|].
  destruct (truncateMessagesFrom_prefix Scenario.env_ok "c1" "m2"
              Scenario.state_c1) as (_ & Hreturned & _).
  destruct (Hreturned [Scenario.hi] eq_refl) as (Hlog & Hkept & _).
  split; [exact Hlog|exact Hkept].
Defined.

Lemma updateConversationMeta_touches_one_witness :
  let out := updateConversationMeta Scenario.env_ok "c1" noUpdates
               Scenario.state_c1 in
  ∃ m, out.1 = Normal m ∧ meta_id m = "c1" ∧
       meta_id <$> index out.2 = meta_id <$> index Scenario.state_c1.
Proof.
  eexists. split; [reflexivity|].
  destruct (updateConversationMeta_touches_one Scenario.env_ok "c1" noUpdates
              Scenario.state_c1) as (_ & _ & Hreturned & _).
  destruct (Hreturned _ eq_refl) as (Hid & Hids & _).
  split; [exact Hid|exact Hids].
Defined.

Lemma createConversation_appends_witness :
  (let out := createConversation Scenario.env_ok (Some "") None None
                Scenario.state_c1 in
   ∃ meta, out.1 = Normal meta ∧
           index out.2 = index Scenario.state_c1 ++ [meta] ∧
           title meta ≠ "" ∧
           List.find (λ c, String.eqb (meta_id c) (meta_id meta)) (index out.2)
             = Some meta) ∧
  (let out := createConversation Scenario.env_ok (Some "Rome") None None
                Scenario2.state_uuid_taken in
   ∃ meta, out.1 = Normal meta ∧ title meta = "Rome" ∧
           List.find (λ c, String.eqb (meta_id c) (meta_id meta)) (index out.2)
             = Some Scenario2.meta_trip).
Proof.
  split.
  - eexists. split; [reflexivity|].
    destruct (createConversation_appends Scenario.env_ok (Some "") None None
                Scenario.state_c1) as (Hreturned & _).
    destruct (Hreturned _ eq_refl) as (_ & Hindex & _ & Htitle & _ & Hfound & _).
    split; [exact Hindex|]. split; [exact Htitle|].
    apply Hfound. repeat constructor. discriminate.
  - eexists. split; [reflexivity|].
    destruct (createConversation_appends Scenario.env_ok (Some "Rome") None None
                Scenario2.state_uuid_taken) as (Hreturned & _).
    destruct (Hreturned _ eq_refl) as (_ & _ & _ & _ & Htitle & _ & Hshadow).
    split; [by apply Htitle|]. apply Hshadow. reflexivity.
Defined.

Lemma deleteConversation_removes_witness :
  let out := deleteConversation Scenario.env_ok "c1" Scenario.state_c1 in
  out.1 = Normal () ∧ logs out.2 = delete "c1" (logs Scenario.state_c1).
Proof.
  split; [reflexivity|].
  destruct (deleteConversation_removes Scenario.env_ok "c1" Scenario.state_c1)
    as (_ & _ & Hreturned & _).
  destruct (Hreturned eq_refl) as (_ & Hlog). apply Hlog. reflexivity.
Defined.

Lemma getRecentMessages_tail_witness :
  ∃ r, getRecentMessages "c1" 1 Scenario.state_c1 = (Normal r, Scenario.state_c1) ∧
       Z.of_nat (length (messages r)) = Z.min 1 (total r) ∧
       hasMore r = (1 <? total r).
Proof.
  destruct (getRecentMessages_tail "c1" 1 Scenario.state_c1)
    as (r & Hrun & _ & _ & Hpositive & _).
  exists r. split; [exact Hrun|]. apply Hpositive. lia.
Defined.

End StoreWitnesses.

Section HoareFacts.
Import JS Orchestrator Store.
Variable env : Env.

(** *** Rules for [hoare] *)

Lemma hoare_weaken {A} (P P' : State → Prop) (m : M A)
    (Q Q' : Completion A → State → Prop) :
  hoare P' m Q' → (∀ s, P s → P' s) → (∀ r s, Q' r s → Q r s) → hoare P m Q.
Proof. intros Hm HP HQ s Hs. apply HQ, Hm, HP, Hs. Qed.

Lemma hoare_ret {A} (P : State → Prop) (a : A) :
  hoare P (mret a) (λ r s, r = Normal a ∧ P s).
Proof. intros s Hs. done. Qed.

Lemma hoare_bind {A B} (P : State → Prop) (m : M A) (f : A → M B)
    (Q1 : Completion A → State → Prop) (Q : Completion B → State → Prop) :
  hoare P m Q1 →
  (∀ a, hoare (Q1 (Normal a)) (f a) Q) →
  (∀ e s, Q1 (Abrupt e) s → Q (Abrupt e) s) →
  hoare P (m ≫= f) Q.
Proof.
  intros Hm Hf He s Hs. rewrite bind_run. specialize (Hm s Hs).
  destruct (m s) as [[a|e] s1]; simpl in *; [by apply Hf|by apply He].
Qed.

Lemma hoare_tryCatch {A} (P : State → Prop) (body : M A)
    (handler : Thrown → M A) (Q1 Q : Completion A → State → Prop) :
  hoare P body Q1 →
  (∀ a s, Q1 (Normal a) s → Q (Normal a) s) →
  (∀ e, hoare (Q1 (Abrupt e)) (handler e) Q) →
  hoare P (tryCatch body handler) Q.
Proof.
  intros Hb Hn Hh s Hs. unfold tryCatch. specialize (Hb s Hs).
  destruct (body s) as [[a|e] s1]; simpl in *; [by apply Hn|by apply Hh].
Qed.

Lemma hoare_tryFinally {A} (P : State → Prop) (body : M A)
    (cleanup : State → State) (Q1 Q : Completion A → State → Prop) :
  hoare P body Q1 → (∀ r s, Q1 r s → Q r (cleanup s)) →
  hoare P (tryFinally body cleanup) Q.
Proof.
  intros Hb Hc s Hs. unfold tryFinally. specialize (Hb s Hs).
  destruct (body s) as [r s1]. simpl in *. by apply Hc.
Qed.

Lemma keeps_bind {A B} (I : State → Prop) (m : M A) (f : A → M B) :
  keeps I m → (∀ a, keeps I (f a)) → keeps I (m ≫= f).
Proof. intros Hm Hf. eapply hoare_bind; [exact Hm|exact Hf|done]. Qed.

Lemma keeps_tryCatch {A} (I : State → Prop) (body : M A) (handler : Thrown → M A) :
  keeps I body → (∀ e, keeps I (handler e)) → keeps I (tryCatch body handler).
Proof. intros Hb Hh. eapply hoare_tryCatch; [exact Hb|done|exact Hh]. Qed.

Lemma keeps_tryFinally {A} (I : State → Prop) (body : M A) (cleanup : State → State) :
  keeps I body → (∀ s, I s → I (cleanup s)) → keeps I (tryFinally body cleanup).
Proof.
  intros Hb Hc. apply hoare_tryFinally with (Q1 := λ _, I); [exact Hb|].
  intros r. exact Hc.
Qed.

Lemma keeps_intro {A} (same : State → State → Prop) (I : State → Prop) (m : M A) :
  respects same I → (∀ s, same s (m s).2) → keeps I m.
Proof. intros HI Hm s Hs. by eapply HI. Qed.

(** Steps that leave the logs, or the controllers, as they are. *)
Lemma same_logs_touch_meta conversationId s :
  same_logs s (touch_meta env conversationId s).2.
Proof. destruct (touch_meta_frame env conversationId s) as (s' & -> & Hl & _). done. Qed.

Lemma same_controllers_writeFile effect failure s :
  (∀ st, same_controllers st (effect st)) →
  same_controllers s (writeFile env effect failure s).2.
Proof.
  intros He. unfold writeFile.
  destruct (write_fails_at env (writes_tried s)); simpl; [done|].
  destruct (He (with_counters (uuids_drawn s) (clock_reads s) (S (writes_tried s)) s)).
  done.
Qed.

Lemma same_controllers_touch_meta conversationId s :
  same_controllers s (touch_meta env conversationId s).2.
Proof.
  unfold touch_meta, tryCatch. rewrite bind_run.
  destruct (updateConversationMeta_cases env conversationId noUpdates s)
    as [[_ ->]|(existing & _ & _ & _ & _ & _ & Hsig & Hac & _)]; [done|].
  destruct (updateConversationMeta env conversationId noUpdates s) as [[m|e] s1];
    done.
Qed.
End HoareFacts.

Section InvariantFacts.
Import JS Orchestrator Store.
Variable env : Env.

Lemma wf_respects : respects same_controllers controllers_wf.
Proof.
  intros s s' [Hsig Hac] Hwf id k. rewrite Hsig, Hac. apply Hwf.
Qed.

Lemma wf_stopGeneration conversationId : keeps controllers_wf (stopGeneration conversationId).
Proof.
  intros s Hwf. unfold stopGeneration.
  destruct (activeControllers s !! conversationId) as [c|] eqn:Hc; [|done].
  intros id k. simpl. rewrite length_insert.
  destruct (decide (id = conversationId)) as [->|Hne].
  - by rewrite lookup_delete_eq.
  - rewrite lookup_delete_ne by done. apply Hwf.
Qed.

Lemma wf_await_stream conversationId todo acc :
  keeps controllers_wf (await_stream conversationId todo acc).
Proof.
  revert acc. induction todo as [|[event|cid] rest IH]; intros acc; simpl.
  - by intros s Hs.
  - apply keeps_bind; [|intros acc'; apply IH].
    apply (keeps_intro same_controllers); [apply wf_respects|].
    intros s. by destruct event.
  - apply keeps_bind; [apply wf_stopGeneration|]. intros _. apply IH.
Qed.

Ltac quiet := apply (keeps_intro same_controllers); [apply wf_respects|]; intros ?.

Lemma wf_store_and_complete conversationId (msg : ChatMessage) ev :
  keeps controllers_wf
    (appendMessage env conversationId msg;;
     touch_meta env conversationId;;
     webContents_send ev).
Proof.
  apply keeps_bind; [quiet; by apply same_controllers_writeFile|]. intros _.
  apply keeps_bind; [quiet; apply same_controllers_touch_meta|]. intros _.
  by quiet.
Qed.

Lemma wf_sendMessage_try conversationId modelId run :
  keeps controllers_wf (sendMessage_try env conversationId modelId run).
Proof.
  unfold sendMessage_try.
  apply keeps_bind; [by quiet|]. intros result.
  apply keeps_bind; [by quiet|]. intros id.
  apply keeps_bind; [by quiet|]. intros now.
  apply wf_store_and_complete.
Qed.

Lemma wf_sendMessage_catch conversationId modelId controller acc1 acc2 error :
  keeps controllers_wf
    (sendMessage_catch env conversationId modelId controller acc1 acc2 error).
Proof.
  unfold sendMessage_catch.
  apply keeps_bind; [by quiet|]. intros [|]; [|by quiet].
  destruct (negb _); [|by quiet].
  apply keeps_bind; [by quiet|]. intros id.
  apply keeps_bind; [by quiet|]. intros now.
  apply wf_store_and_complete.
Qed.

(** [sendMessage] and [stopGeneration] keep every registered controller
    allocated, which is what the statements about stopping assume. *)
Lemma controllers_wf_kept (input : ChatSendInput) (run : StreamRun)
    (conversationId : string) (s : State) :
  controllers_wf s →
  controllers_wf (sendMessage env input run s).2 ∧
  controllers_wf (stopGeneration conversationId s).2.
Proof.
  intros Hwf. split; [|by apply wf_stopGeneration].
  revert s Hwf. change (keeps controllers_wf (sendMessage env input run)).
  unfold sendMessage.
  destruct (List.find _ _) as [channel|]; [|by quiet].
  destruct (decryptApiKey env _) as [apiKey|]; [|by quiet].
  apply keeps_bind; [by quiet|]. intros id.
  apply keeps_bind; [by quiet|]. intros now.
  apply keeps_bind; [quiet; by apply same_controllers_writeFile|]. intros _.
  apply keeps_bind; [by quiet|]. intros fullHistory.
  eapply hoare_bind with
    (Q1 := λ r st, controllers_wf st ∧
                   ∀ k, r = Normal k → (k < length (signals st))%nat).
  - intros st Hst. unfold newAbortController. simpl. split.
    + intros i k Hk. simpl in *. rewrite length_app. simpl. specialize (Hst i k Hk). lia.
    + intros k [= <-]. rewrite length_app. simpl. lia.
  - intros controller.
    apply hoare_bind with (Q1 := λ _, controllers_wf).
    + intros st [Hst Hk]. intros i k. unfold register_controller. simpl.
      destruct (decide (i = Orchestrator.conversationId input)) as [->|Hne].
      * rewrite lookup_insert_eq. intros [= <-]. by apply Hk.
      * rewrite lookup_insert_ne by done. apply Hst.
    + intros _. apply keeps_tryFinally.
      * apply keeps_bind; [by quiet|]. intros _.
        apply keeps_bind; [apply wf_await_stream|]. intros acc.
        apply keeps_tryCatch; [apply wf_sendMessage_try|].
        intros e. apply wf_sendMessage_catch.
      * intros st Hst i k. unfold unregister_controller. simpl.
        destruct (decide (i = Orchestrator.conversationId input)) as [->|Hne].
        -- by rewrite lookup_delete_eq.
        -- rewrite lookup_delete_ne by done. apply Hst.
    + done.
  - intros e st [Hst _]. exact Hst.
Qed.
End InvariantFacts.

Section LogFacts.
Import JS Orchestrator Store.
Variable env : Env.

Lemma appends_only_respects cid s0 : respects same_logs (appends_only cid s0).
Proof.
  intros s s' Hl [Ho Hp]. unfold same_logs in Hl. unfold appends_only, messages_of.
  rewrite Hl. by split.
Qed.

Lemma appends_only_appendMessage cid s0 (msg : ChatMessage) :
  keeps (appends_only cid s0) (appendMessage env cid msg).
Proof.
  intros s [Ho Hp]. unfold appendMessage, writeFile.
  destruct (write_fails_at env (writes_tried s)); simpl; [by split|].
  split.
  - intros id Hne. simpl. rewrite lookup_insert_ne by done. by apply Ho.
  - unfold messages_of at 2. simpl. rewrite lookup_insert_eq. simpl.
    etrans; [exact Hp|]. by apply prefix_app_r.
Qed.

Ltac logs_kept cid s0 :=
  apply (keeps_intro same_logs); [apply (appends_only_respects cid s0)|]; intros ?.

Lemma same_logs_stopGeneration cid s : same_logs s (stopGeneration cid s).2.
Proof. unfold stopGeneration. by destruct (activeControllers s !! cid). Qed.

Lemma appends_only_await_stream cid s0 todo acc :
  keeps (appends_only cid s0) (await_stream cid todo acc).
Proof.
  revert acc. induction todo as [|[event|cid'] rest IH]; intros acc; simpl.
  - by intros s Hs.
  - apply keeps_bind; [|intros acc'; apply IH].
    logs_kept cid s0. by destruct event.
  - apply keeps_bind; [|intros _; apply IH].
    logs_kept cid s0. apply same_logs_stopGeneration.
Qed.

Lemma appends_only_store_and_complete cid s0 (msg : ChatMessage) ev :
  keeps (appends_only cid s0)
    (appendMessage env cid msg;; touch_meta env cid;; webContents_send ev).
Proof.
  apply keeps_bind; [apply appends_only_appendMessage|]. intros _.
  apply keeps_bind; [logs_kept cid s0; apply same_logs_touch_meta|]. intros _.
  by logs_kept cid s0.
Qed.

(** X18. Whatever the run and however it ends, [sendMessage] leaves the
    logs of the other conversations as they were, and the log of its own
    conversation only grows at its end. *)
Theorem sendMessage_appends_only (input : ChatSendInput) (run : StreamRun)
    (s : State) :
  appends_only (conversationId input) s (sendMessage env input run s).2.
Proof.
  set (cid := conversationId input).
  assert (Hrefl : appends_only cid s s) by done.
  revert Hrefl. generalize s at 2 4. 
  change (keeps (appends_only cid s) (sendMessage env input run)).
  unfold sendMessage. fold cid.
  destruct (List.find _ _) as [channel|]; [|by logs_kept cid s].
  destruct (decryptApiKey env _) as [apiKey|]; [|by logs_kept cid s].
  apply keeps_bind; [by logs_kept cid s|]. intros id.
  apply keeps_bind; [by logs_kept cid s|]. intros now.
  apply keeps_bind; [apply appends_only_appendMessage|]. intros _.
  apply keeps_bind; [by logs_kept cid s|]. intros fullHistory.
  apply keeps_bind; [by logs_kept cid s|]. intros controller.
  apply keeps_bind; [by logs_kept cid s|]. intros _.
  apply keeps_tryFinally.
  - apply keeps_bind; [by logs_kept cid s|]. intros _.
    apply keeps_bind; [apply appends_only_await_stream|]. intros acc.
    apply keeps_tryCatch.
    + unfold sendMessage_try.
      apply keeps_bind; [by logs_kept cid s|]. intros result.
      apply keeps_bind; [by logs_kept cid s|]. intros id'.
      apply keeps_bind; [by logs_kept cid s|]. intros now'.
      apply appends_only_store_and_complete.
    + intros e. unfold sendMessage_catch.
      apply keeps_bind; [by logs_kept cid s|]. intros [|]; [|by logs_kept cid s].
      destruct (negb _); [|by logs_kept cid s].
      apply keeps_bind; [by logs_kept cid s|]. intros id'.
      apply keeps_bind; [by logs_kept cid s|]. intros now'.
      apply appends_only_store_and_complete.
  - intros st Hst. by apply (appends_only_respects cid s st).
Qed.

End LogFacts.

Section TurnFacts.
Import JS Orchestrator Store.
Variable env : Env.

(** A signal that no step of the pending stream raises: that of a controller
    registered for this conversation only, when no stop is asked for it. *)
Lemma await_stream_unstopped conversationId todo acc s k :
  stop_requested conversationId todo = false →
  signals s !! k = Some false →
  (∀ id, activeControllers s !! id = Some k → id = conversationId) →
  signals (await_stream conversationId todo acc s).2 !! k = Some false.
Proof.
  revert acc s. induction todo as [|[event|cid] rest IH]; intros acc s Hno Hk Huniq.
  - done.
  - simpl in Hno. simpl. rewrite bind_run.
    destruct event; simpl; by apply IH.
  - simpl in Hno. apply orb_false_iff in Hno as [Hne Hno].
    apply String.eqb_neq in Hne.
    simpl. rewrite bind_run. unfold stopGeneration.
    destruct (activeControllers s !! cid) as [c|] eqn:Hc; [|by apply IH].
    apply IH; [done|simpl..].
    + rewrite list_lookup_insert_ne; [done|].
      intros ->. by apply Hne, Huniq.
    + intros id. destruct (decide (id = cid)) as [->|Hid].
      * by rewrite lookup_delete_eq.
      * rewrite lookup_delete_ne by done. apply Huniq.
Qed.

(** X19. Once the channel and the key are resolved and the user message
    is stored, [sendMessage] ends, however the stream settles and whatever
    the later writes do, with no controller registered for its conversation
    (the [finally] block). *)
Theorem sendMessage_deregisters (input : ChatSendInput) (run : StreamRun)
    (channel : Channel) (apiKey : string) (s : State) :
  List.find (λ c, String.eqb (chan_id c) (channelId input)) (listChannels env)
    = Some channel →
  decryptApiKey env (channelId input) = Some apiKey →
  write_fails_at env (writes_tried s) = false →
  activeControllers (sendMessage env input run s).2 !! conversationId input = None.
Proof.
  intros Hchan Hkey Hdisk. unfold sendMessage. rewrite Hchan, Hkey.
  repeat (rewrite bind_run; simpl).
  rewrite appendMessage_ok by apply Hdisk.
  repeat (rewrite bind_run; simpl).
  unfold tryFinally.
  match goal with |- context [(let (r, s') := ?b in _)] => destruct b as [r s'] end.
  simpl. apply lookup_delete_eq.
Qed.

Local Opaque appendMessage touch_meta.

(** X20. A turn whose stream call resolves, on a disk that accepts the
    writes: [sendMessage] returns, the log gains the user message and then
    an assistant message with the resolved content, the resolved reasoning
    (absent when empty), the model id and no [stopped] flag, and the pushes
    are the relayed deltas followed by one [STREAM_COMPLETE] with the id of
    that message. This holds also when a stop was requested meanwhile. *)
Theorem sendMessage_completed (input : ChatSendInput) (run : StreamRun)
    (channel : Channel) (apiKey text thoughts : string) (s : State) :
  List.find (λ c, String.eqb (chan_id c) (channelId input)) (listChannels env)
    = Some channel →
  decryptApiKey env (channelId input) = Some apiKey →
  (∀ n, write_fails_at env n = false) →
  settled run = Normal (text, thoughts) →
  let cid := conversationId input in
  let out := sendMessage env input run s in
  ∃ userMsg assistantMsg,
    out.1 = Normal () ∧
    messages_of out.2 cid = messages_of s cid ++ [userMsg; assistantMsg] ∧
    role userMsg = user ∧ content userMsg = in_userMessage input ∧
    role assistantMsg = assistant ∧ content assistantMsg = text ∧
    reasoning assistantMsg = nonEmpty thoughts ∧
    model assistantMsg = Some (in_modelId input) ∧
    stopped assistantMsg = None ∧
    sent out.2 = sent s ++ relayed cid (steps run) ++
                 [STREAM_COMPLETE cid (in_modelId input)
                    (Some (msg_id assistantMsg))].
Proof.
  intros Hchan Hkey Hdisk Hres cid out. subst out.
  destruct (sendMessage env input run s) as [r sf] eqn:Hrun.
  unfold sendMessage in Hrun. rewrite Hchan, Hkey in Hrun. fold cid in Hrun.
  repeat (rewrite bind_run in Hrun; simpl in Hrun).
  rewrite appendMessage_ok in Hrun by apply Hdisk.
  repeat (rewrite bind_run in Hrun; simpl in Hrun).
  unfold tryFinally in Hrun.
  repeat (rewrite bind_run in Hrun; simpl in Hrun).
  match type of Hrun with
  | context [await_stream ?c ?t ?a ?st] =>
      destruct (await_stream_spec c t a st)
        as (sg & ac & Hawait & _)
  end.
  rewrite Hawait in Hrun. clear Hawait. simpl in Hrun.
  unfold tryCatch, sendMessage_try, settle in Hrun. rewrite Hres in Hrun.
  repeat (rewrite bind_run in Hrun; simpl in Hrun).
  rewrite appendMessage_ok in Hrun by apply Hdisk.
  repeat (rewrite bind_run in Hrun; simpl in Hrun).
  match type of Hrun with
  | context [touch_meta env ?c ?st] =>
      destruct (touch_meta_frame env c st) as (s2 & Htouch & Hlogs & Hsent)
  end.
  rewrite Htouch in Hrun. clear Htouch. simpl in Hrun. injection Hrun as <- <-.
  unfold messages_of in *. simpl in Hlogs, Hsent |- *.
  eexists {| msg_id := _; role := user |}, {| msg_id := _; role := assistant |}.
  split_and!; [reflexivity| |reflexivity..|].
  - rewrite Hlogs, !lookup_insert_eq. simpl. by rewrite <- (assoc_L (++)).
  - rewrite Hsent. simpl. by rewrite <- !(assoc_L (++)).
Qed.

(** X21. A turn whose stream call rejects while nobody asked to stop the
    conversation: [sendMessage] returns, the pushes are the relayed deltas
    followed by one [STREAM_ERROR] with the message of the error (a fixed
    text when the thrown value is not an [Error]), and the log gains the
    user message only: the text accumulated so far is not stored. *)
Theorem sendMessage_failed (input : ChatSendInput) (run : StreamRun)
    (channel : Channel) (apiKey : string) (e : Thrown) (s : State) :
  List.find (λ c, String.eqb (chan_id c) (channelId input)) (listChannels env)
    = Some channel →
  decryptApiKey env (channelId input) = Some apiKey →
  write_fails_at env (writes_tried s) = false →
  controllers_wf s →
  stop_requested (conversationId input) (steps run) = false →
  settled run = Abrupt e →
  let cid := conversationId input in
  let out := sendMessage env input run s in
  ∃ userMsg,
    out.1 = Normal () ∧
    messages_of out.2 cid = messages_of s cid ++ [userMsg] ∧
    role userMsg = user ∧ content userMsg = in_userMessage input ∧
    sent out.2 = sent s ++ relayed cid (steps run) ++
                 [STREAM_ERROR cid
                    match e with Err message => message
                               | NotAnError => "未知错误" end].
Proof.
  intros Hchan Hkey Hdisk Hwf Hno Hrej cid out. subst out.
  destruct (sendMessage env input run s) as [r sf] eqn:Hrun.
  unfold sendMessage in Hrun. rewrite Hchan, Hkey in Hrun. fold cid in Hrun.
  repeat (rewrite bind_run in Hrun; simpl in Hrun).
  rewrite appendMessage_ok in Hrun by apply Hdisk.
  repeat (rewrite bind_run in Hrun; simpl in Hrun).
  unfold tryFinally in Hrun.
  repeat (rewrite bind_run in Hrun; simpl in Hrun).
  match type of Hrun with
  | context [await_stream ?c ?t ?a ?st] =>
      pose proof (await_stream_unstopped c t a st (length (signals s)) Hno)
        as Hquiet;
      destruct (await_stream_spec c t a st)
        as (sg & ac & Hawait & _)
  end.
  rewrite Hawait in Hrun, Hquiet. clear Hawait. simpl in Hrun, Hquiet.
  assert (sg !! length (signals s) = Some false) as Hsig.
  { apply Hquiet.
    - rewrite lookup_app_r, Nat.sub_diag by lia. done.
    - intros id. destruct (decide (id = cid)) as [->|Hid]; [done|].
      rewrite lookup_insert_ne by done. intros Hk. apply Hwf in Hk. lia. }
  unfold tryCatch in Hrun.
  rewrite (sendMessage_try_rejected env _ _ _ e) in Hrun by done.
  unfold sendMessage_catch, signal_aborted in Hrun.
  rewrite bind_run in Hrun. simpl in Hrun. rewrite Hsig in Hrun. simpl in Hrun.
  injection Hrun as <- <-.
  unfold messages_of. simpl.
  eexists {| msg_id := _; role := user |}.
  split_and!; [reflexivity| |reflexivity..|].
  - by rewrite lookup_insert_eq.
  - by rewrite <- !(assoc_L (++)).
Qed.
End TurnFacts.

Section RequestFacts.
Import JS Orchestrator Store Windowing.
Variable env : Env.










End RequestFacts.

Section TurnWitnesses.
Import JS Orchestrator Store.

Lemma sendMessage_deregisters_witness :
  activeControllers
    (sendMessage Scenario.env_ok Scenario.send_2plus2 Scenario.run_stopped
       Scenario.state_c1).2 !! "c1" = None.
Proof.
  apply (sendMessage_deregisters Scenario.env_ok Scenario.send_2plus2
           Scenario.run_stopped Scenario2.channel_ch "sk-test"
           Scenario.state_c1); reflexivity.
Defined.

Lemma sendMessage_completed_witness :
  let out := sendMessage Scenario.env_ok Scenario.send_2plus2
               Scenario.run_answer Scenario.state_c1 in
  ∃ userMsg assistantMsg,
    out.1 = Normal () ∧
    messages_of out.2 "c1" =
      messages_of Scenario.state_c1 "c1" ++ [userMsg; assistantMsg] ∧
    role userMsg = user ∧ content userMsg = "what's 2+2?" ∧
    role assistantMsg = assistant ∧ content assistantMsg = "4" ∧
    reasoning assistantMsg = None ∧
    model assistantMsg = Some "claude" ∧
    stopped assistantMsg = None ∧
    sent out.2 = sent Scenario.state_c1 ++
                 relayed "c1" (steps Scenario.run_answer) ++
                 [STREAM_COMPLETE "c1" "claude" (Some (msg_id assistantMsg))].
Proof.
  apply (sendMessage_completed Scenario.env_ok Scenario.send_2plus2
           Scenario.run_answer Scenario2.channel_ch "sk-test" "4" ""
           Scenario.state_c1);
    [reflexivity|reflexivity|intros n; reflexivity|reflexivity].
Defined.

Lemma sendMessage_failed_witness :
  let out := sendMessage Scenario.env_ok Scenario.send_2plus2
               Scenario2.run_failed Scenario2.state_streaming in
  ∃ userMsg,
    out.1 = Normal () ∧
    messages_of out.2 "c1" =
      messages_of Scenario2.state_streaming "c1" ++ [userMsg] ∧
    role userMsg = user ∧ content userMsg = "what's 2+2?" ∧
    sent out.2 = sent Scenario2.state_streaming ++
                 relayed "c1" (steps Scenario2.run_failed) ++
                 [STREAM_ERROR "c1" "HTTP 500"].
Proof.
  apply (sendMessage_failed Scenario.env_ok Scenario.send_2plus2
           Scenario2.run_failed Scenario2.channel_ch "sk-test"
           (Err "HTTP 500") Scenario2.state_streaming);
    [reflexivity|reflexivity|reflexivity| |reflexivity|reflexivity].
  intros id k. simpl. intros [_ <-]%lookup_singleton_Some. lia.
Defined.


End TurnWitnesses.

Section AdapterEventFacts.
Import JS.

Lemma optProp_then_getProp (v : option Value) name x :
  optProp v name = Normal x → truthy x = true → getProp v name = Normal x.
Proof.
  destruct v as [[]|]; simpl; intros [= <-]; try done.
Qed.

Lemma Anthropic_body_carriesText (event : Value) evs :
  Anthropic.parseSSELine_body event = Normal evs →
  Forall (λ ev, carriesText ev = true) evs.
Proof.
  unfold Anthropic.parseSSELine_body.
  unfold mbind, mret, Completion_bind, Completion_ret.
  destruct (getProp (Some event) "type") as [type|]; [|done].
  destruct (strictEqStr type "content_block_delta"); [|by intros [= <-]].
  destruct (getProp (Some event) "delta") as [delta|]; [|done].
  destruct (optProp delta "type") as [delta_type|]; [|done].
  destruct (optProp delta "thinking") as [thinking|] eqn:Hth; [|done].
  destruct (strictEqStr delta_type "thinking_delta" && truthy thinking) eqn:Hc.
  - apply andb_true_iff in Hc as [_ Ht].
    rewrite (optProp_then_getProp _ _ _ Hth Ht). cbv beta iota.
    destruct thinking as [d|]; intros [= <-]; repeat constructor. exact Ht.
  - destruct (optProp delta "text") as [text|] eqn:Htx; [|done].
    destruct (truthy text) eqn:Ht; [|by intros [= <-]].
    rewrite (optProp_then_getProp _ _ _ Htx Ht). cbv beta iota.
    destruct text as [d|]; intros [= <-]; repeat constructor. exact Ht.
Qed.

Lemma Google_part_event_carriesText (part : Value) ev :
  Google.part_event part = Normal (Some ev) → carriesText ev = true.
Proof.
  unfold Google.part_event.
  unfold mbind, mret, Completion_bind, Completion_ret.
  destruct (getProp (Some part) "text") as [[d|]|]; [|done..].
  destruct (truthy (Some d)) eqn:Ht; [|done].
  destruct (getProp (Some part) "thought") as [thought|]; [|done].
  destruct (truthy thought); intros [= <-]; exact Ht.
Qed.

Lemma Google_for_parts_carriesText items acc evs :
  Forall (λ ev, carriesText ev = true) acc →
  Google.for_parts items acc = Normal evs →
  Forall (λ ev, carriesText ev = true) evs.
Proof.
  revert acc. induction items as [|part rest IH]; intros acc Hacc; simpl.
  - by intros [= <-].
  - unfold mbind, Completion_bind.
    destruct (Google.part_event part) as [[ev|]|] eqn:Hp; [| |done].
    + apply IH. apply Forall_app. split; [done|]. repeat constructor.
      by eapply Google_part_event_carriesText.
    + by apply IH.
Qed.

Lemma Google_body_carriesText (parsed : Value) evs :
  Google.parseSSELine_body parsed = Normal evs →
  Forall (λ ev, carriesText ev = true) evs.
Proof.
  unfold Google.parseSSELine_body.
  unfold mbind, mret, Completion_bind, Completion_ret.
  destruct (getProp (Some parsed) "candidates") as [candidates|]; [|done].
  destruct (optIndex0 candidates) as [candidate|]; [|done].
  destruct (optProp candidate "content") as [content|]; [|done].
  destruct (optProp content "parts") as [[parts|]|]; [| |done].
  - destruct (truthy (Some parts)); [|by intros [= <-]].
    destruct (iterate parts) as [items|]; [|done].
    by apply Google_for_parts_carriesText.
  - by intros [= <-].
Qed.

(** X23. Both [parseSSELine]s return, for every line, only chunk and
    reasoning events, each with a delta that is truthy (for a string: not
    empty); they never produce an error or a done event. *)
Theorem parseSSELine_emits_text_only (JSON_parse : string → option Value)
    (jsonLine : string) :
  (∃ evs, Anthropic.parseSSELine JSON_parse jsonLine = Normal evs ∧
          Forall (λ ev, carriesText ev = true) evs) ∧
  (∃ evs, Google.parseSSELine JSON_parse jsonLine = Normal evs ∧
          Forall (λ ev, carriesText ev = true) evs).
Proof.
  unfold Anthropic.parseSSELine, Google.parseSSELine.
  unfold mbind, mret, Completion_bind, Completion_ret.
  destruct (JSON_parse jsonLine) as [v|]; cbv beta iota.
  - split.
    + destruct (Anthropic.parseSSELine_body v) as [evs|e] eqn:Hb; cbv beta iota.
      * exists evs. split; [done|]. by eapply Anthropic_body_carriesText.
      * by exists [].
    + destruct (Google.parseSSELine_body v) as [evs|e] eqn:Hb; cbv beta iota.
      * exists evs. split; [done|]. by eapply Google_body_carriesText.
      * by exists [].
  - split; by exists [].
Qed.

Lemma Google_for_parts_null items acc :
  JNull ∈ items → ∃ e, Google.for_parts items acc = Abrupt e.
Proof.
  revert acc. induction items as [|part rest IH]; intros acc Hin.
  - by apply elem_of_nil in Hin.
  - simpl. unfold mbind, Completion_bind.
    apply elem_of_cons in Hin as [<-|Hin]; [by eexists|].
    destruct (Google.part_event part) as [[ev|]|]; [by apply IH..|by eexists].
Qed.

(** X24. A Gemini frame with a [null] among its parts yields no event at
    all: reading [part.text] throws, and the [catch] discards the events of
    the parts before it too. *)
Theorem Google_null_part_discards_frame (JSON_parse : string → option Value)
    (jsonLine : string) :
  JNull ∈ Google.frame_parts (JSON_parse jsonLine) →
  Google.parseSSELine JSON_parse jsonLine = Normal [].
Proof.
  unfold Google.parseSSELine, Google.frame_parts, Google.parseSSELine_body.
  unfold mbind, mret, Completion_bind, Completion_ret.
  destruct (JSON_parse jsonLine) as [v|]; [|done].
  destruct (getProp (Some v) "candidates") as [candidates|]; [|done].
  destruct (optIndex0 candidates) as [candidate|]; [|done].
  destruct (optProp candidate "content") as [content|]; [|done].
  destruct (optProp content "parts") as [[[]|]|]; simpl;
    try (by intros ?%elem_of_nil).
  intros Hin. destruct (Google_for_parts_null items [] Hin) as [e ->]. done.
Qed.

Lemma Google_null_part_discards_frame_witness :
  Google.parseSSELine JSONText.parse
    (JSONText.dq "{'candidates':[{'content':{'parts':[{'text':'a'},null]}}]}")
  = Normal [].
Proof.
  apply Google_null_part_discards_frame. vm_compute.
  apply list_elem_of_further, list_elem_of_here.
Defined.

Lemma optProp_not_nullish v name :
  nullish v = false → optProp v name = getProp v name.
Proof. by destruct v as [[]|]. Qed.

Lemma optProp_normal v name : ∃ x, optProp v name = Normal x.
Proof. destruct v as [[]|]; simpl; eauto. Qed.

Lemma optIndex0_normal v : ∃ x, optIndex0 v = Normal x.
Proof. destruct v as [[| | |[|]| |]|]; simpl; eauto. Qed.

(** X25. Both [parseTitleResponse]s throw exactly when the response body
    is [null] or [undefined]; on any other body, whatever its shape, they
    return (the text that is found, or [null]). *)
Theorem parseTitleResponse_throws_on_nullish (responseBody : option Value) :
  if nullish responseBody
  then (∃ e, AnthropicRequest.parseTitleResponse responseBody = Abrupt e) ∧
       (∃ e, GoogleRequest.parseTitleResponse responseBody = Abrupt e)
  else (∃ r, AnthropicRequest.parseTitleResponse responseBody = Normal r) ∧
       (∃ r, GoogleRequest.parseTitleResponse responseBody = Normal r).
Proof.
  unfold AnthropicRequest.parseTitleResponse, GoogleRequest.parseTitleResponse.
  unfold mbind, mret, Completion_bind, Completion_ret.
  destruct (nullish responseBody) eqn:Hn.
  - destruct responseBody as [[]|]; try done; split; by eexists.
  - assert (∃ x, getProp responseBody "content" = Normal x) as [c ->].
    { rewrite <- (optProp_not_nullish _ _ Hn). apply optProp_normal. }
    assert (∃ x, getProp responseBody "candidates" = Normal x) as [cs ->].
    { rewrite <- (optProp_not_nullish _ _ Hn). apply optProp_normal. }
    cbv beta iota. split.
    + destruct (optIndex0_normal c) as [b ->]. cbv beta iota.
      destruct (optProp_normal b "text") as [t ->]. by eexists.
    + destruct (optIndex0_normal cs) as [cand ->]. cbv beta iota.
      destruct (optProp_normal cand "content") as [ct ->]. cbv beta iota.
      destruct (optProp_normal ct "parts") as [ps ->]. cbv beta iota.
      destruct (optIndex0_normal ps) as [p0 ->]. cbv beta iota.
      destruct (optProp_normal p0 "text") as [t ->]. by eexists.
Qed.
End AdapterEventFacts.

Section ConversionFacts.
Import JS Orchestrator Store.

(** X26. [toAnthropicMessages] and [toGoogleContents] agree: each returns
    one message per non-system message of the history plus one, with
    corresponding roles at each position (assistant for Anthropic where
    Google has model, user where it has user), and the last one is a user
    message. *)
Theorem conversions_agree (input : StreamRequestInput) :
  let nonSystem :=
    filter (λ msg, Role_eqb (role msg) system = false) (history input) in
  let A := Anthropic.toAnthropicMessages input in
  let G := GoogleRequest.toGoogleContents input in
  length A = S (length nonSystem) ∧ length G = S (length nonSystem) ∧
  Forall2 (λ a g, match Anthropic.a_role a, GoogleRequest.g_role g with
                  | Anthropic.role_user, GoogleRequest.role_user
                  | Anthropic.role_assistant, GoogleRequest.role_model => True
                  | _, _ => False
                  end) A G ∧
  last (Anthropic.a_role <$> A) = Some Anthropic.role_user ∧
  last (GoogleRequest.g_role <$> G) = Some GoogleRequest.role_user.
Proof.
  intros nonSystem A G. subst A G.
  unfold Anthropic.toAnthropicMessages, GoogleRequest.toGoogleContents.
  fold nonSystem.
  rewrite !length_app, !length_fmap, !fmap_app. simpl. rewrite !last_snoc.
  split_and!; [lia|lia| |done|done].
  apply Forall2_app; [|by repeat constructor].
  apply Forall2_fmap, Forall_Forall2_diag, Forall_forall. intros msg _.
  destruct (Role_eqb (role msg) assistant);
    by destruct (Role_eqb (role msg) user && Anthropic.nonEmptyAttachments msg).
Qed.

Lemma includes_true xs x : ChatView.includes xs x = true ↔ x ∈ xs.
Proof.
  unfold ChatView.includes. rewrite existsb_exists. split.
  - intros (y & Hy & ->%String.eqb_eq). by apply list_elem_of_In.
  - intros Hin. exists x. split; [by apply list_elem_of_In|apply String.eqb_refl].
Qed.

(** X27. [handleDeleteMessage] and [handleDeleteDivider] compute the same
    divider list: the old one without any occurrence of the id, the other
    ids kept with their multiplicity and order; removing the id again
    changes nothing. *)
Theorem deleteDivider_removes (contextDividers : list string) (messageId : string) :
  let D' := ChatView.handleDeleteDivider contextDividers messageId in
  ChatView.handleDeleteMessage contextDividers messageId = D' ∧
  ChatView.includes D' messageId = false ∧
  (∀ other, other ≠ messageId →
     filter (λ id, id = other) D' = filter (λ id, id = other) contextDividers) ∧
  D' `sublist_of` contextDividers ∧
  ChatView.handleDeleteDivider D' messageId = D'.
Proof.
  intros D'. subst D'. unfold ChatView.handleDeleteMessage, ChatView.handleDeleteDivider.
  assert (ChatView.includes (ChatView.without contextDividers messageId) messageId
          = false) as Hgone.
  { apply not_true_iff_false. rewrite includes_true. unfold ChatView.without.
    intros [Hne _]%list_elem_of_filter. by rewrite String.eqb_refl in Hne. }
  split_and!.
  - destruct (ChatView.includes contextDividers messageId) eqn:Hin; [done|].
    symmetry. by apply without_absent, includes_false.
  - exact Hgone.
  - intros other Hne. unfold ChatView.without. clear Hgone.
    induction contextDividers as [|d D IH]; [done|].
    rewrite !filter_cons.
    destruct (decide (String.eqb d messageId = false)) as [Hd|Hd].
    + rewrite filter_cons. destruct (decide (d = other)); [f_equal|]; exact IH.
    + apply not_false_iff_true, String.eqb_eq in Hd. subst d.
      destruct (decide (messageId = other)); [congruence|]. apply IH.
  - apply sublist_filter.
  - by apply without_absent, includes_false.
Qed.
End ConversionFacts.

Section StopFacts.
Import JS Orchestrator Store.

(** X28. [stopGeneration], in a state where every registered controller
    exists: the signal of the controller registered for the conversation is
    aborted and the registration is removed; the other registrations stay,
    no signal is lowered or created, and a second call changes nothing. *)
Theorem stopGeneration_aborts_once (conversationId : string) (s : State) :
  controllers_wf s →
  let out := (stopGeneration conversationId s).2 in
  (∀ k, activeControllers s !! conversationId = Some k →
        signals out !! k = Some true) ∧
  activeControllers out !! conversationId = None ∧
  (∀ id, id ≠ conversationId →
         activeControllers out !! id = activeControllers s !! id) ∧
  (∀ k, signals s !! k = Some true → signals out !! k = Some true) ∧
  length (signals out) = length (signals s) ∧
  stopGeneration conversationId out = (Normal (), out).
Proof.
  intros Hwf out. subst out. unfold stopGeneration.
  destruct (activeControllers s !! conversationId) as [c|] eqn:Hc; simpl.
  - rewrite lookup_delete_eq. split_and!; [|done| | | |done].
    + intros k [= <-]. apply list_lookup_insert_eq. by eapply Hwf.
    + intros id Hne. by rewrite lookup_delete_ne.
    + intros k Hk. destruct (decide (k = c)) as [->|Hne].
      * apply list_lookup_insert_eq. by eapply Hwf.
      * by rewrite list_lookup_insert_ne.
    + apply length_insert.
  - rewrite Hc. split_and!; done.
Qed.

Lemma stopGeneration_aborts_once_witness :
  let s := Scenario2.state_streaming in
  let out := (stopGeneration "c1" s).2 in
  (∀ k, activeControllers s !! "c1" = Some k → signals out !! k = Some true) ∧
  activeControllers out !! "c1" = None ∧
  (∀ id, id ≠ "c1" → activeControllers out !! id = activeControllers s !! id) ∧
  (∀ k, signals s !! k = Some true → signals out !! k = Some true) ∧
  length (signals out) = length (signals s) ∧
  stopGeneration "c1" out = (Normal (), out).
Proof.
  apply (stopGeneration_aborts_once "c1" Scenario2.state_streaming).
  intros id k. simpl. intros [_ <-]%lookup_singleton_Some. lia.
Defined.
End StopFacts.
